(** * pakserve: the PAK archive codec and the HTTP download server

    A shallow embedding of [pak/reader.go], [pak/writer.go] and of the
    server's [main.go] (request routing, access gates, content
    negotiation, archive scanning, reload), followed by the properties
    established about them.

    Conventions.
    - A Go [string] and a Go [[]byte] are both byte sequences; they are
      modelled as [list ascii] (an [ascii] is one 8-bit byte).
    - Go's [uint32] values are modelled as [Z] with the wrap-around
      written out ([wrap32]); Go's [int] and [int64] never overflow at
      the places modelled here and are plain [Z].
    - A fallible Go function returning [(T, error)] returns [result T].
    - The strings of the development are ASCII strings (file names,
      URL paths, header values): [strings.ToLower], [strings.TrimSpace]
      and [unicode.IsDigit] are modelled by what they do on ASCII bytes
      (bytes 'A'..'Z' are mapped to 'a'..'z', every other byte is kept);
      the Unicode tables Go consults on other input are outside the
      model, and [isASCII] marks the statements made for every input. *)

From Stdlib Require Import Ascii String.
From Stdlib Require Import ZArith List Lia Bool Arith Permutation Sorted.
Import ListNotations.

Open Scope Z_scope.

(** ** Byte sequences *)

Definition str (s : string) : list ascii := list_ascii_of_string s.

Definition byteZ (b : ascii) : Z := Z.of_N (N_of_ascii b).

Definition Zbyte (v : Z) : ascii := ascii_of_N (Z.to_N (v mod 256)).

Definition len {A : Type} (l : list A) : Z := Z.of_nat (length l).

(** [s[n:]] and [s[:n]] with [Z] indices, by recursion on the sequence so
    that large offsets evaluate. *)
Fixpoint drop {A : Type} (n : Z) (l : list A) : list A :=
  match l with
  | [] => []
  | x :: t => if n <=? 0 then l else drop (n - 1) t
  end.

Fixpoint take {A : Type} (n : Z) (l : list A) : list A :=
  match l with
  | [] => []
  | x :: t => if n <=? 0 then [] else x :: take (n - 1) t
  end.

Definition wrap32 (v : Z) : Z := v mod 2 ^ 32.

(** [binary.LittleEndian.Uint32] and [PutUint32]. *)
Definition Uint32 (b : list ascii) : Z :=
  match b with
  | b0 :: b1 :: b2 :: b3 :: _ =>
      byteZ b0 + byteZ b1 * 2 ^ 8 + byteZ b2 * 2 ^ 16 + byteZ b3 * 2 ^ 24
  | _ => 0
  end.

Definition PutUint32 (v : Z) : list ascii :=
  [Zbyte v; Zbyte (v / 2 ^ 8); Zbyte (v / 2 ^ 16); Zbyte (v / 2 ^ 24)].

(** ** Errors and results *)

Inductive error : Type :=
| errBadIdent | errBadDirLen | errBadDirOfs | errBadFileLen
| errBadFilePos | errTooManyFiles
| errNameTooLong | errAlreadyClosed | errFileNotOpen | errFileTooBig
| errBadDirectory            (* the server's "pak: bad directory" *)
| EOF | ErrUnexpectedEOF.    (* io.EOF, io.ErrUnexpectedEOF *)

(** The errors that report a malformed archive, as opposed to an I/O
    error of the underlying reader. *)
Definition isFormatError (e : error) : bool :=
  match e with
  | errBadIdent | errBadDirLen | errBadDirOfs | errBadFileLen
  | errBadFilePos | errTooManyFiles | errBadDirectory => true
  | _ => false
  end.

Inductive result (A : Type) : Type :=
| Ok (a : A)
| Err (e : error).
Arguments Ok {A} a.
Arguments Err {A} e.

Definition bind {A B : Type} (r : result A) (k : A -> result B) : result B :=
  match r with
  | Ok a => k a
  | Err e => Err e
  end.

Notation "'do' x <- r ; k" := (bind r (fun x => k))
  (at level 10, x name, r at level 100, k at level 200).

(** [io.ReadFull] on a reader positioned at [pos] over the bytes [r]:
    [io.EOF] when nothing is left, [io.ErrUnexpectedEOF] when fewer than
    [n] bytes are left. *)
Definition readFull (r : list ascii) (pos n : Z) : result (list ascii) :=
  if n <=? 0 then Ok []
  else
    let rest := drop pos r in
    match rest with
    | [] => Err EOF
    | _ => if len rest <? n then Err ErrUnexpectedEOF else Ok (take n rest)
    end.

(** [bytes.IndexByte(b, 0)] followed by [b[:i]] (the whole of [b] when no
    zero byte occurs). *)
Fixpoint untilZero (b : list ascii) : list ascii :=
  match b with
  | [] => []
  | c :: t => if Ascii.eqb c zero then [] else c :: untilZero t
  end.

(** ** The PAK codec: package pak *)

Module Pak.

(** ['P' | 'A'<<8 | 'C'<<16 | 'K'<<24] *)
Definition pakIdent : Z :=
  Eval cbv in
    Z.lor (byteZ "P") (Z.lor (Z.shiftl (byteZ "A") 8)
      (Z.lor (Z.shiftl (byteZ "C") 16) (Z.shiftl (byteZ "K") 24))).
Definition headerSize : Z := 12.
Definition entrySize : Z := 64.
Definition MaxFiles : Z := 4096.
Definition MaxFileName : Z := 56.
Definition MaxOffset : Z := 2 ^ 31 - 1.

Record pakHeader : Type := mkHeader
  { Ident : Z; Dirofs : Z; Dirlen : Z }.

Record pakEntry : Type := mkEntry
  { Name : list ascii; Filepos : Z; Filelen : Z }.

(** A [File] of a [Reader]; the back pointer to the reader is the byte
    sequence passed to [Open]. *)
Record File : Type := mkFile
  { fName : list ascii; fFilepos : Z; fFilelen : Z }.

(** [binary.Read(r, binary.LittleEndian, &header)] and [&entry]. *)
Definition decodeHeader (b : list ascii) : pakHeader :=
  mkHeader (Uint32 b) (Uint32 (drop 4 b)) (Uint32 (drop 8 b)).

Definition decodeEntry (b : list ascii) : pakEntry :=
  mkEntry (take 56 b) (Uint32 (drop 56 b)) (Uint32 (drop 60 b)).

Definition readHeader (r : list ascii) (pos : Z) : result pakHeader :=
  do b <- readFull r pos headerSize; Ok (decodeHeader b).

Definition readEntry (r : list ascii) (pos : Z) : result pakEntry :=
  do b <- readFull r pos entrySize; Ok (decodeEntry b).

(** The checks of the loop body of [Reader.init] on one entry. *)
Definition checkEntry (entry : pakEntry) : result File :=
  if Filelen entry >? MaxOffset then Err errBadFileLen
  else if Filepos entry >? wrap32 (MaxOffset - Filelen entry)
  then Err errBadFilePos
  else Ok (mkFile (untilZero (Name entry)) (Filepos entry) (Filelen entry)).

(** The loop [for i := 0; i < numFiles; i++] of [Reader.init], reading
    from position [pos]. *)
Fixpoint readFiles (r : list ascii) (pos : Z) (numFiles : nat)
  : result (list File) :=
  match numFiles with
  | O => Ok []
  | S n =>
      do entry <- readEntry r pos;
      do f <- checkEntry entry;
      do fs <- readFiles r (pos + entrySize) n;
      Ok (f :: fs)
  end.

(** [Reader.init(r, size)] with [r] the [size] bytes of the archive;
    the result is [pak.File]. *)
Definition init (r : list ascii) : result (list File) :=
  do header <- readHeader r 0;
  if negb (Ident header =? pakIdent) then Err errBadIdent
  else if negb (Dirlen header mod entrySize =? 0) then Err errBadDirLen
  else
    let numFiles := Dirlen header / entrySize in
    if numFiles >? MaxFiles then Err errTooManyFiles
    else if Dirofs header >? wrap32 (MaxOffset - Dirlen header)
    then Err errBadDirOfs
    else readFiles r (Dirofs header) (Z.to_nat numFiles).

Definition NewReader (r : list ascii) : result (list File) := init r.

(** [File.Open] followed by reading the section to its end. *)
Definition Open (r : list ascii) (f : File) : list ascii :=
  take (fFilelen f) (drop (fFilepos f) r).

(** *** Writer *)

(** An in-memory [io.WriteSeeker]: the bytes written so far and the
    current position.  Writing past the end extends the sequence. *)
Record WriteSeeker : Type := mkWS
  { wsBuf : list ascii; wsPos : Z }.

Definition wsSeekStart (w : WriteSeeker) (off : Z) : WriteSeeker :=
  mkWS (wsBuf w) off.

Definition wsWrite (w : WriteSeeker) (p : list ascii) : WriteSeeker :=
  let pre := take (wsPos w) (wsBuf w) in
  let pad := repeat zero (Z.to_nat (wsPos w - len (wsBuf w))) in
  mkWS (pre ++ pad ++ p ++ drop (wsPos w + len p) (wsBuf w))
       (wsPos w + len p).

Record Writer : Type := mkWriter
  { w : WriteSeeker; files : list pakEntry; offset : Z; closed : bool }.

Definition encodeHeader (h : pakHeader) : list ascii :=
  PutUint32 (Ident h) ++ PutUint32 (Dirofs h) ++ PutUint32 (Dirlen h).

Definition encodeEntry (e : pakEntry) : list ascii :=
  Name e ++ PutUint32 (Filepos e) ++ PutUint32 (Filelen e).

(** [copy(entry.Name[:], name)] into a zeroed [[56]byte]. *)
Definition copyName (name : list ascii) : list ascii :=
  take MaxFileName name
  ++ repeat zero (Z.to_nat (MaxFileName - len name)).

Definition NewWriter (ws : WriteSeeker) : Writer :=
  let ws := wsSeekStart ws 0 in
  let ws := wsWrite ws (encodeHeader (mkHeader 0 0 0)) in
  mkWriter ws [] headerSize false.

(** [e := &pak.files[len(pak.files)-1]; e.Filelen = uint32(pak.offset) - e.Filepos] *)
Fixpoint setLastLen (fs : list pakEntry) (off : Z) : list pakEntry :=
  match fs with
  | [] => []
  | [e] => [mkEntry (Name e) (Filepos e) (wrap32 (wrap32 off - Filepos e))]
  | e :: t => e :: setLastLen t off
  end.

Definition finishEntry (pak : Writer) : Writer :=
  mkWriter (w pak) (setLastLen (files pak) (offset pak)) (offset pak)
           (closed pak).

Definition finish (pak : Writer) : Writer * option error :=
  let pak := finishEntry pak in
  let dirLen := entrySize * len (files pak) in
  if offset pak >? MaxOffset - dirLen then (pak, Some errBadDirOfs)
  else
    let ws := wsWrite (w pak) (concat (map encodeEntry (files pak))) in
    let ws := wsSeekStart ws 0 in
    let header := mkHeader pakIdent (wrap32 (offset pak)) (wrap32 dirLen) in
    let ws := wsWrite ws (encodeHeader header) in
    (mkWriter ws (files pak) (offset pak) (closed pak), None).

Definition Close (pak : Writer) : Writer * option error :=
  if closed pak then (pak, Some errAlreadyClosed)
  else
    let '(pak, err) := finish pak in
    (mkWriter (w pak) (files pak) (offset pak) true, err).

Definition Create (name : list ascii) (pak : Writer) : Writer * option error :=
  if closed pak then (pak, Some errAlreadyClosed)
  else
    let pak := finishEntry pak in
    if len name >? MaxFileName then (pak, Some errNameTooLong)
    else if len (files pak) >=? MaxFiles then (pak, Some errTooManyFiles)
    else
      let entry := mkEntry (copyName name) (wrap32 (offset pak)) 0 in
      (mkWriter (w pak) (files pak ++ [entry]) (offset pak) (closed pak),
       None).

Definition Write (p : list ascii) (pak : Writer) : Writer * option error :=
  if closed pak then (pak, Some errAlreadyClosed)
  else if len (files pak) =? 0 then (pak, Some errFileNotOpen)
  else if offset pak >? MaxOffset - len p then (pak, Some errFileTooBig)
  else
    (mkWriter (wsWrite (w pak) p) (files pak) (offset pak + len p)
              (closed pak), None).

(** The loop of [TestReadWrite]: [Create] then [Write] for each pair,
    stopping at the first error. *)
Fixpoint writeEntries (l : list (list ascii * list ascii)) (pak : Writer)
  : result Writer :=
  match l with
  | [] => Ok pak
  | (name, content) :: t =>
      match Create name pak with
      | (_, Some e) => Err e
      | (pak, None) =>
          match Write content pak with
          | (_, Some e) => Err e
          | (pak, None) => writeEntries t pak
          end
      end
  end.

(** Write a whole archive to an empty [WriteSeeker] and return the bytes
    produced. *)
Definition writeArchive (l : list (list ascii * list ascii))
  : result (list ascii) :=
  do pak <- writeEntries l (NewWriter (mkWS [] 0));
  match Close pak with
  | (_, Some e) => Err e
  | (pak, None) => Ok (wsBuf (w pak))
  end.

End Pak.

(** ** Strings: package strings, path and strconv as the server uses them *)

Definition isUpper (c : ascii) : bool :=
  (65 <=? byteZ c) && (byteZ c <=? 90).

Definition lowerByte (c : ascii) : ascii :=
  if isUpper c then Zbyte (byteZ c + 32) else c.

(** [strings.ToLower] on ASCII input. *)
Definition ToLower (s : list ascii) : list ascii := map lowerByte s.

Definition isASCII (s : list ascii) : bool :=
  forallb (fun c => byteZ c <? 128) s.

(** Go's [a == b] on strings. *)
Fixpoint eqs (a b : list ascii) : bool :=
  match a, b with
  | [], [] => true
  | x :: a', y :: b' => Ascii.eqb x y && eqs a' b'
  | _, _ => false
  end.

Fixpoint HasPrefix (s prefix : list ascii) {struct prefix} : bool :=
  match prefix, s with
  | [], _ => true
  | p :: pt, c :: st => Ascii.eqb p c && HasPrefix st pt
  | _ :: _, [] => false
  end.


(** Go's [a < b] on strings: byte-wise lexicographic order. *)
Fixpoint ltS (a b : list ascii) : bool :=
  match a, b with
  | [], [] => false
  | [], _ :: _ => true
  | _ :: _, [] => false
  | x :: a', y :: b' =>
      if byteZ x <? byteZ y then true
      else if byteZ y <? byteZ x then false
      else ltS a' b'
  end.

(** [strings.ReplaceAll(n, "\\", "/")] *)
Definition backslash : ascii := ascii_of_nat 92.
Definition slash : ascii := "/"%char.
Definition dot : ascii := "."%char.

Definition ReplaceAllBackslash (n : list ascii) : list ascii :=
  map (fun c => if Ascii.eqb c backslash then slash else c) n.

(** [strings.Split(s, sep)] for a one-byte separator: the result is never
    empty. *)
Fixpoint Split (sep : ascii) (s : list ascii) : list (list ascii) :=
  match s with
  | [] => [[]]
  | c :: t =>
      if Ascii.eqb c sep then [] :: Split sep t
      else
        match Split sep t with
        | seg :: rest => (c :: seg) :: rest
        | [] => [[c]]
        end
  end.

(** [strings.Join(elems, "/")] *)
Fixpoint Join (elems : list (list ascii)) : list ascii :=
  match elems with
  | [] => []
  | [e] => e
  | e :: t => e ++ slash :: Join t
  end.

Definition dotS : list ascii := [dot].
Definition dotdotS : list ascii := [dot; dot].

(** The main loop of [path.Clean] read by path elements.  [out] is the
    output buffer as the list of elements written so far, last one
    first.  Go keeps an index [dotdot] below which the buffer cannot be
    backtracked; elements at or below it are exactly the leading ".."
    elements of an unrooted path, so "out.w > dotdot" is "the last
    element written is not ..". *)
Fixpoint cleanLoop (rooted : bool) (elems out : list (list ascii))
  : list (list ascii) :=
  match elems with
  | [] => out
  | e :: rest =>
      if eqs e [] then cleanLoop rooted rest out        (* empty element *)
      else if eqs e dotS then cleanLoop rooted rest out (* . element *)
      else if eqs e dotdotS then
        match out with
        | top :: below =>
            if eqs top dotdotS
            then cleanLoop rooted rest (if rooted then out else e :: out)
            else cleanLoop rooted rest below            (* can backtrack *)
        | [] => cleanLoop rooted rest (if rooted then out else [e])
        end
      else cleanLoop rooted rest (e :: out)              (* real element *)
  end.

(** [path.Clean] of Go's standard library. *)
Definition Clean (path : list ascii) : list ascii :=
  match path with
  | [] => dotS
  | c :: _ =>
      let rooted := Ascii.eqb c slash in
      let out := rev (cleanLoop rooted (Split slash path) []) in
      if rooted then slash :: Join out
      else match out with [] => dotS | _ => Join out end
  end.

(** [filepath.Join(a, b)] where the separator is '/'. *)
Definition filepathJoin (a b : list ascii) : list ascii :=
  match a, b with
  | [], [] => []
  | [], _ => Clean b
  | _, [] => Clean a
  | _, _ => Clean (a ++ slash :: b)
  end.

Definition isDigit (c : ascii) : bool :=
  (48 <=? byteZ c) && (byteZ c <=? 57).

(** [strings.TrimSpace] on ASCII input. *)
Definition isSpace (c : ascii) : bool :=
  let v := byteZ c in
  (v =? 32) || ((9 <=? v) && (v <=? 13)).

Fixpoint trimLeft (s : list ascii) : list ascii :=
  match s with
  | c :: t => if isSpace c then trimLeft t else s
  | [] => []
  end.

Definition TrimSpace (s : list ascii) : list ascii :=
  rev (trimLeft (rev (trimLeft s))).

(** [strconv.Atoi] on a non-empty run of decimal digits: the value, or a
    range error beyond the 64-bit [int]. *)
Definition digitsValue (ds : list ascii) : Z :=
  fold_left (fun acc c => acc * 10 + (byteZ c - 48)) ds 0.

Definition Atoi (ds : list ascii) : option Z :=
  let v := digitsValue ds in
  if v <=? 2 ^ 63 - 1 then Some v else None.

(** [strings.FieldsFunc(s, func(c) bool { return !unicode.IsDigit(c) })[0]]:
    the first maximal run of digits, if any. *)
Fixpoint takeDigits (s : list ascii) : list ascii :=
  match s with
  | c :: t => if isDigit c then c :: takeDigits t else []
  | [] => []
  end.

Fixpoint firstDigits (s : list ascii) : option (list ascii) :=
  match s with
  | [] => None
  | c :: t => if isDigit c then Some (takeDigits s) else firstDigits t
  end.

(** ** The server: package main *)

Module Server.

Definition normalizeName (n : list ascii) : list ascii :=
  let n := ReplaceAllBackslash n in
  let n := Clean (slash :: n) in
  ToLower (drop 1 n).

Definition atoi (s : list ascii) : option Z :=
  match firstDigits s with
  | Some f0 => Atoi f0
  | None => None
  end.

(** The closure passed to [sort.Slice] in [scandir], as a function of the
    two elements [paks[i]] and [paks[j]]. *)
Definition pakLess (paks_i paks_j : list ascii) : bool :=
  let a := ToLower paks_j in
  let b := ToLower paks_i in
  let p1 := HasPrefix a (str "pak") in
  let p2 := HasPrefix b (str "pak") in
  if p1 && p2 then
    match atoi a, atoi b with
    | Some v1, Some v2 => v1 <? v2
    | _, _ => ltS a b
    end
  else if p1 then true
  else if p2 then false
  else ltS a b.





Record PakFileEntry : Type := mkPakFileEntry
  { offset : Z;     (* int64 *)
    size : Z;       (* raw (compressed) size *)
    filecrc : Z;
    filelen : Z;    (* uncompressed size *)
    mtime : Z;
    method : Z }.

(** A Go [map[string]PakFileEntry]: assignment puts the pair in front and
    lookup takes the first pair with the key, so the last assignment to a
    key wins. *)
Definition FileMap : Type := list (list ascii * PakFileEntry).

Fixpoint mapGet (m : FileMap) (k : list ascii) : option PakFileEntry :=
  match m with
  | [] => None
  | (k', v) :: t => if eqs k k' then Some v else mapGet t k
  end.

Definition mapSet (m : FileMap) (k : list ascii) (v : PakFileEntry)
  : FileMap := (k, v) :: m.

(** [files == nil] marks a directory. *)
Record SearchPath : Type := mkSearchPath
  { path : list ascii; files : option FileMap }.

Definition MaxInt32 : Z := 2 ^ 31 - 1.

(** The loop of [scanpak] over the directory entries. *)
Fixpoint scanpakEntries (f : list ascii) (pos : Z) (numFiles : nat)
  (m : FileMap) : result FileMap :=
  match numFiles with
  | O => Ok m
  | S k =>
      do entry <- Pak.readEntry f pos;
      if Pak.Filelen entry >? MaxInt32 then Err errBadDirectory
      else
        let n := untilZero (Pak.Name entry) in
        scanpakEntries f (pos + 64) k
          (mapSet m (normalizeName n)
             (mkPakFileEntry (Pak.Filepos entry) (Pak.Filelen entry) 0 0 0 0))
  end.

(** [scanpak(name)] once [os.Open(name)] has succeeded on a file holding
    the bytes [f]. *)
Definition scanpak (name : list ascii) (f : list ascii) : result SearchPath :=
  do header <- Pak.readHeader f 0;
  if negb (Pak.Ident header =? Pak.pakIdent) then Err errBadIdent
  else
    let numFiles := Pak.Dirlen header / 64 in
    do m <- scanpakEntries f (Pak.Dirofs header) (Z.to_nat numFiles) [];
    Ok (mkSearchPath name (Some m)).

(** *** Requests, responses and the configuration *)

(** A compiled [*regexp.Regexp], as its [FindStringIndex]: the bounds of
    the leftmost match, if any. *)
Definition Regexp : Type := list ascii -> option (Z * Z).

Definition MatchString (re : Regexp) (s : list ascii) : bool :=
  match re s with Some _ => true | None => false end.

(** The regular expression [^lit] for a literal [lit]. *)
Definition anchored (lit : list ascii) : Regexp :=
  fun s => if HasPrefix s lit then Some (0, len lit) else None.

Record CompiledSearchPath : Type := mkCompiled
  { match_ : Regexp; search : list SearchPath }.

Record Request : Type := mkRequest
  { Method : list ascii;
    URLPath : list ascii;                 (* r.URL.Path *)
    Referer : list ascii;
    AcceptEncoding : list (list ascii);   (* r.Header["Accept-Encoding"] *)
    ProtoAtLeast11 : bool }.

(** What a handler did to its [http.ResponseWriter]: the status passed
    to [WriteHeader], the header map and the bytes written. *)
Record Response : Type := mkResponse
  { status : Z;
    header : list (list ascii * list ascii);
    body : list ascii }.

Definition noResponse : Response := mkResponse 0 [] [].

Definition StatusOK : Z := 200.
Definition StatusForbidden : Z := 403.
Definition StatusNotFound : Z := 404.

Definition headerGet (h : list (list ascii * list ascii)) (k : list ascii)
  : option (list ascii) :=
  match find (fun kv => eqs k (fst kv)) h with
  | Some kv => Some (snd kv)
  | None => None
  end.

(** [w.Header().Set(k, v)] *)
Definition headerSet (k v : list ascii) (w : Response) : Response :=
  mkResponse (status w)
    ((k, v) :: filter (fun kv => negb (eqs k (fst kv))) (header w))
    (body w).

Definition WriteHeader (code : Z) (w : Response) : Response :=
  mkResponse code (header w) (body w).

Definition write (p : list ascii) (w : Response) : Response :=
  mkResponse (status w) (header w) (body w ++ p).

(** [strconv.FormatInt(v, 10)] for [v >= 0]. *)
Fixpoint formatDigits (fuel : nat) (v : Z) (acc : list ascii) : list ascii :=
  match fuel with
  | O => acc
  | S k =>
      let acc := Zbyte (48 + v mod 10) :: acc in
      if v / 10 =? 0 then acc else formatDigits k (v / 10) acc
  end.

Definition FormatInt (v : Z) : list ascii := formatDigits 20 v [].

(** The process-wide configuration and the world the handler reads:
    the compiled patterns, the routing table, the file system
    ([osOpen name] is the content of the file when [os.Open(name)]
    succeeds), [flate]'s decompressor and [http.ServeContent]. *)
Record Env : Type := mkEnv
  { Separator : ascii;                    (* filepath.Separator *)
    ContentType : list ascii;             (* config.ContentType *)
    refererCheck : Regexp;
    pakBlackList : list Regexp;
    dirWhiteList : list Regexp;
    searchPaths : list CompiledSearchPath;
    osOpen : list ascii -> option (list ascii);
    inflate : list ascii -> list ascii;
    ServeContent : Request -> list ascii -> Response -> Response }.

(** [io.NewSectionReader(f, entry.offset, int64(entry.size))] read to its
    end by [io.Copy]. *)
Definition section (f : list ascii) (entry : PakFileEntry) : list ascii :=
  take (size entry) (drop (offset entry) f).

(** [r] is [None] for the nil reader of a HEAD request. *)
Definition handleGzip (entry : PakFileEntry) (r : option (list ascii))
  (w : Response) : Response :=
  let w := headerSet (str "Content-Length") (FormatInt (size entry + 18)) w in
  let w := headerSet (str "Content-Encoding") (str "gzip") w in
  let w := WriteHeader StatusOK w in
  match r with
  | None => w
  | Some r =>
      (* gzip header *)
      let b := [Zbyte 31; Zbyte 139; Zbyte 8; Zbyte 0]
               ++ PutUint32 (mtime entry) ++ [Zbyte 0; Zbyte 3] in
      let w := write b w in
      (* raw deflate stream *)
      let w := write r w in
      (* gzip trailer *)
      write (PutUint32 (filecrc entry) ++ PutUint32 (filelen entry)) w
  end.

Definition handleRaw (entry : PakFileEntry) (r : option (list ascii))
  (w : Response) : Response :=
  let w := headerSet (str "Content-Length") (FormatInt (size entry)) w in
  let w := if negb (method entry =? 0)
           then headerSet (str "Content-Encoding") (str "deflate") w
           else w in
  let w := WriteHeader StatusOK w in
  match r with
  | Some r => write r w
  | None => w
  end.

Definition handleInflate (E : Env) (entry : PakFileEntry)
  (r : option (list ascii)) (w : Response) : Response :=
  let w := headerSet (str "Content-Length") (FormatInt (filelen entry)) w in
  let w := WriteHeader StatusOK w in
  match r with
  | Some r => write (inflate E r) w
  | None => w
  end.

(** The loop of [findSearchPath] over [searchPaths]. *)
Fixpoint findLoop (routes : list CompiledSearchPath) (p : list ascii)
  (found : option (list SearchPath)) (longest : Z)
  : option (list SearchPath) * Z :=
  match routes with
  | [] => (found, longest)
  | s :: rest =>
      match match_ s p with
      | Some (lo, hi) =>
          if (lo =? 0) && (hi >? longest)
          then findLoop rest p (Some (search s)) hi
          else findLoop rest p found longest
      | None => findLoop rest p found longest
      end
  end.

(** [findSearchPath]: the result [search] is [None] for Go's nil slice. *)
Definition findSearchPath (routes : list CompiledSearchPath)
  (urlPath : list ascii) : option (list SearchPath) * list ascii :=
  let p := ToLower (Clean urlPath) in
  let '(found, longest) := findLoop routes p None 0 in
  (found, drop longest p).

Definition parseAcceptEncoding (r : Request) : bool * bool :=
  fold_left
    (fun acc value =>
       fold_left
         (fun '(hasGzip, hasDeflate) encoding =>
            let e := ToLower (TrimSpace encoding) in
            if eqs e (str "gzip") then (true, hasDeflate)
            else if eqs e (str "deflate") then (hasGzip, true)
            else (hasGzip, hasDeflate))
         (Split ","%char value) acc)
    (AcceptEncoding r) (false, false).

Definition matchRegexpList (l : list Regexp) (s : list ascii) : bool :=
  existsb (fun r => MatchString r s) l.

Definition closeWithError (r : Request) (code : Z) (w : Response)
  : Response :=
  let w := if ProtoAtLeast11 r
           then headerSet (str "Connection") (str "close") w else w in
  WriteHeader code w.

(** The body of the loop of [handler] for an archive entry that was found
    in an archive whose file [f] could be opened. *)
Definition serveEntry (E : Env) (r : Request) (hasGzip hasDeflate : bool)
  (entry : PakFileEntry) (f : list ascii) (w : Response) : Response :=
  let reader := if eqs (Method r) (str "HEAD") then None
                else Some (section f entry) in
  let w := headerSet (str "Content-Type") (ContentType E) w in
  if negb (method entry =? 0) then
    (* prefer gzip wrapping because it has CRC *)
    if hasGzip then handleGzip entry reader w
    else if hasDeflate then handleRaw entry reader w
    else handleInflate E entry reader w
  else handleRaw entry reader w.

(** The loop [for _, s := range search] of [handler]. *)
Fixpoint serveLoop (E : Env) (r : Request) (p : list ascii)
  (allowPak allowDir hasGzip hasDeflate : bool)
  (stores : list SearchPath) (w : Response) : Response :=
  match stores with
  | [] => WriteHeader StatusNotFound w
  | s :: rest =>
      let next := serveLoop E r p allowPak allowDir hasGzip hasDeflate rest w in
      match files s with
      | None =>
          (* look in the directory tree *)
          if negb allowDir then next
          else
            match osOpen E (filepathJoin (path s) p) with
            | Some f =>
                ServeContent E r f
                  (headerSet (str "Content-Type") (ContentType E) w)
            | None => next
            end
      | Some m =>
          if negb allowPak then next
          else
            (* look in packfile *)
            match mapGet m p with
            | None => next
            | Some entry =>
                match osOpen E (path s) with
                | None => next
                | Some f => serveEntry E r hasGzip hasDeflate entry f w
                end
            end
      end
  end.

Definition tampered (E : Env) (r : Request) : bool :=
  negb (Ascii.eqb (Separator E) slash)
  && existsb (Ascii.eqb (Separator E)) (URLPath r).

Definition handler (E : Env) (r : Request) : Response :=
  let w := noResponse in
  if tampered E r then closeWithError r StatusForbidden w
  else if negb (MatchString (refererCheck E) (Referer r))
  then closeWithError r StatusForbidden w
  else
    let '(search, p) := findSearchPath (searchPaths E) (URLPath r) in
    match search with
    | None => WriteHeader StatusNotFound w
    | Some search =>
        if len p =? 0 then WriteHeader StatusNotFound w
        else
          let allowPak := negb (matchRegexpList (pakBlackList E) p) in
          let allowDir := matchRegexpList (dirWhiteList E) p in
          if negb allowPak && negb allowDir
          then WriteHeader StatusNotFound w
          else
            let '(hasGzip, hasDeflate) := parseAcceptEncoding r in
            serveLoop E r p allowPak allowDir hasGzip hasDeflate search w
    end.

End Server.

(** ** Reload: [scanSearchPaths] against concurrent [findSearchPath]

    The shared variables are [searchPaths], [dirCache] and
    [searchPathsMutex].  One goroutine runs [scanSearchPaths] (the SIGHUP
    handler), any number run [findSearchPath]; an execution is an
    interleaving of their atomic steps. *)

Module Reload.
Import Server.

Record ConfigSearchPath : Type := mkConfig
  { Match : list ascii; Search : list (list ascii) }.

(** What a scan reads from outside: [regexp.MustCompile] and the result
    of listing, sorting and scanning one directory that is not in
    [dirCache]. *)
Record World : Type := mkWorld
  { compile : list ascii -> Regexp;
    scanFS : list ascii -> list SearchPath }.

Definition DirCache : Type := list (list ascii * list SearchPath).

Fixpoint cacheGet (c : DirCache) (name : list ascii)
  : option (list SearchPath) :=
  match c with
  | [] => None
  | (k, v) :: t => if eqs name k then Some v else cacheGet t name
  end.

(** [scandir]: a hit in [dirCache] does not read the file system. *)
Definition scandir (W : World) (name : list ascii) (cache : DirCache)
  : list SearchPath * DirCache :=
  match cacheGet cache name with
  | Some sp => (sp, cache)
  | None => let sp := scanFS W name in (sp, (name, sp) :: cache)
  end.

(** [for _, dir := range cfg.Search { sp = append(sp, scandir(dir)...) }] *)
Fixpoint scanDirs (W : World) (dirs : list (list ascii))
  (sp : list SearchPath) (cache : DirCache) : list SearchPath * DirCache :=
  match dirs with
  | [] => (sp, cache)
  | dir :: rest =>
      let '(found, cache) := scandir W dir cache in
      scanDirs W rest (sp ++ found) cache
  end.

(** One iteration of the loop over [config.SearchPaths]. *)
Definition scanRoute (W : World) (cfg : ConfigSearchPath)
  (tbl : list CompiledSearchPath) (cache : DirCache)
  : list CompiledSearchPath * DirCache :=
  let '(sp, cache) := scanDirs W (Search cfg) [] cache in
  (tbl ++ [mkCompiled (compile W (Match cfg)) sp], cache).

Fixpoint scanRoutes (W : World) (cfgs : list ConfigSearchPath)
  (tbl : list CompiledSearchPath) (cache : DirCache)
  : list CompiledSearchPath * DirCache :=
  match cfgs with
  | [] => (tbl, cache)
  | cfg :: rest =>
      let '(tbl, cache) := scanRoute W cfg tbl cache in
      scanRoutes W rest tbl cache
  end.

(** The table a complete run of [scanSearchPaths] leaves. *)
Definition newTable (W : World) (cfgs : list ConfigSearchPath)
  : list CompiledSearchPath :=
  fst (scanRoutes W cfgs [] []).

(** Where the goroutine running [scanSearchPaths] is. *)
Inductive ScanPC : Type :=
| ScanIdle                                    (* before Lock() *)
| ScanLocked                                  (* Lock() returned *)
| ScanLoop (todo : list ConfigSearchPath)     (* in the loop *)
| ScanDone.                                   (* deferred Unlock() ran *)

(** Where a goroutine running [findSearchPath] is, and the table its
    [range searchPaths] read. *)
Inductive FindPC : Type :=
| FindIdle                                          (* before RLock() *)
| FindLocked                                        (* RLock() returned *)
| FindRanged (seen : list CompiledSearchPath)       (* loop ran *)
| FindDone (seen : list CompiledSearchPath).        (* RUnlock() ran *)

Record State : Type := mkState
  { writer : bool;                 (* searchPathsMutex held for writing *)
    readers : nat;                 (* number of read locks held *)
    table : list CompiledSearchPath;      (* searchPaths *)
    dirCache : DirCache;
    scanner : ScanPC;
    finders : list FindPC }.

Inductive Action : Type :=
| ScanLock | ScanReset | ScanStep | ScanUnlock
| FindRLock (i : nat) | FindRange (i : nat) | FindRUnlock (i : nat).

Fixpoint setNth {A : Type} (i : nat) (x : A) (l : list A) : list A :=
  match l, i with
  | [], _ => []
  | _ :: t, O => x :: t
  | y :: t, S k => y :: setNth k x t
  end.

(** One atomic step; [None] when the step is not enabled (a blocked
    [Lock] or [RLock], or a goroutine that is elsewhere). *)
Definition exec (W : World) (cfgs : list ConfigSearchPath) (s : State)
  (a : Action) : option State :=
  match a with
  | ScanLock =>
      match scanner s with
      | ScanIdle =>
          if negb (writer s) && (readers s =? 0)%nat
          then Some (mkState true (readers s) (table s) (dirCache s)
                       ScanLocked (finders s))
          else None
      | _ => None
      end
  | ScanReset =>
      match scanner s with
      | ScanLocked =>
          Some (mkState (writer s) (readers s) [] [] (ScanLoop cfgs)
                  (finders s))
      | _ => None
      end
  | ScanStep =>
      match scanner s with
      | ScanLoop (cfg :: rest) =>
          let '(tbl, cache) := scanRoute W cfg (table s) (dirCache s) in
          Some (mkState (writer s) (readers s) tbl cache (ScanLoop rest)
                  (finders s))
      | _ => None
      end
  | ScanUnlock =>
      match scanner s with
      | ScanLoop [] =>
          Some (mkState false (readers s) (table s) (dirCache s) ScanDone
                  (finders s))
      | _ => None
      end
  | FindRLock i =>
      match nth_error (finders s) i with
      | Some FindIdle =>
          if negb (writer s)
          then Some (mkState (writer s) (S (readers s)) (table s)
                       (dirCache s) (scanner s)
                       (setNth i FindLocked (finders s)))
          else None
      | _ => None
      end
  | FindRange i =>
      match nth_error (finders s) i with
      | Some FindLocked =>
          Some (mkState (writer s) (readers s) (table s) (dirCache s)
                  (scanner s) (setNth i (FindRanged (table s)) (finders s)))
      | _ => None
      end
  | FindRUnlock i =>
      match nth_error (finders s) i with
      | Some (FindRanged t) =>
          Some (mkState (writer s) (pred (readers s)) (table s)
                  (dirCache s) (scanner s)
                  (setNth i (FindDone t) (finders s)))
      | _ => None
      end
  end.

Fixpoint run (W : World) (cfgs : list ConfigSearchPath)
  (acts : list Action) (s : State) : option State :=
  match acts with
  | [] => Some s
  | a :: rest =>
      match exec W cfgs s a with
      | Some s' => run W cfgs rest s'
      | None => None
      end
  end.

(** The published table is [old], nobody holds the mutex, and [n]
    lookups are about to start. *)
Definition initial (old : list CompiledSearchPath) (cache : DirCache)
  (n : nat) : State :=
  mkState false 0 old cache ScanIdle (repeat FindIdle n).

(** The scanner is between its first and its last access to the file
    system or to the table. *)
Definition scanning (s : State) : bool :=
  match scanner s with
  | ScanLocked | ScanLoop _ => true
  | _ => false
  end.

Definition seen (f : FindPC) : option (list CompiledSearchPath) :=
  match f with
  | FindRanged t | FindDone t => Some t
  | _ => None
  end.

End Reload.

(** ** Vocabulary of the statements *)

(** What the loop of [handler] finds: the first backing store that passes
    its gate and yields the asset. *)
Inductive Hit : Type :=
| HitDir (f : list ascii)                           (* a file of a directory *)
| HitPak (entry : Server.PakFileEntry) (f : list ascii). (* an archive entry *)

Fixpoint firstHit (E : Server.Env) (p : list ascii) (allowPak allowDir : bool)
  (stores : list Server.SearchPath) : option Hit :=
  match stores with
  | [] => None
  | s :: rest =>
      let here :=
        match Server.files s with
        | None =>
            if allowDir
            then option_map HitDir
                   (Server.osOpen E (filepathJoin (Server.path s) p))
            else None
        | Some m =>
            if allowPak
            then match Server.mapGet m p, Server.osOpen E (Server.path s) with
                 | Some entry, Some f => Some (HitPak entry f)
                 | _, _ => None
                 end
            else None
        end in
      match here with
      | Some h => Some h
      | None => firstHit E p allowPak allowDir rest
      end
  end.

(** The asset [p] is in no backing store of the route. *)
Definition absent (E : Server.Env) (p : list ascii)
  (stores : list Server.SearchPath) : Prop :=
  forall s, In s stores ->
    match Server.files s with
    | None => Server.osOpen E (filepathJoin (Server.path s) p) = None
    | Some m => Server.mapGet m p = None
    end.

(** The outcome of a request in the words of the interface description:
    forbidden, not found, or served from a hit. *)
Inductive Outcome : Type :=
| Forbidden
| NotFound
| Served (h : Hit).

Definition allowPakOf (E : Server.Env) (p : list ascii) : bool :=
  negb (Server.matchRegexpList (Server.pakBlackList E) p).

Definition allowDirOf (E : Server.Env) (p : list ascii) : bool :=
  Server.matchRegexpList (Server.dirWhiteList E) p.

Definition resolve (E : Server.Env) (r : Server.Request) : Outcome :=
  if Server.tampered E r
     || negb (Server.MatchString (Server.refererCheck E) (Server.Referer r))
  then Forbidden
  else
    match Server.findSearchPath (Server.searchPaths E) (Server.URLPath r) with
    | (None, _) => NotFound                      (* no route *)
    | (Some _, []) => NotFound                   (* empty asset path *)
    | (Some stores, p) =>
        if negb (allowPakOf E p) && negb (allowDirOf E p)
        then NotFound                            (* rejected by both gates *)
        else match firstHit E p (allowPakOf E p) (allowDirOf E p) stores with
             | None => NotFound                  (* no store yields it *)
             | Some h => Served h
             end
    end.


(** The response written for a hit. *)
Definition render (E : Server.Env) (r : Server.Request) (h : Hit)
  : Server.Response :=
  match h with
  | HitDir f =>
      Server.ServeContent E r f
        (Server.headerSet (str "Content-Type") (Server.ContentType E)
           Server.noResponse)
  | HitPak entry f =>
      let '(hasGzip, hasDeflate) := Server.parseAcceptEncoding r in
      Server.serveEntry E r hasGzip hasDeflate entry f Server.noResponse
  end.

(** The 10-byte gzip header and the 8-byte trailer of an entry. *)
Definition gzipHeader (entry : Server.PakFileEntry) : list ascii :=
  [Zbyte 31; Zbyte 139; Zbyte 8; Zbyte 0]
  ++ PutUint32 (Server.mtime entry) ++ [Zbyte 0; Zbyte 3].

Definition gzipTrailer (entry : Server.PakFileEntry) : list ascii :=
  PutUint32 (Server.filecrc entry) ++ PutUint32 (Server.filelen entry).

Definition getHeader (w : Server.Response) (k : string) : option (list ascii) :=
  Server.headerGet (Server.header w) (str k).


(** The end of a route's match on [p] when [findSearchPath] can select
    it: the match begins at offset 0 and is not empty. *)
Definition candidate (p : list ascii) (s : Server.CompiledSearchPath)
  : option Z :=
  match Server.match_ s p with
  | Some (lo, hi) => if (lo =? 0) && (hi >? 0) then Some hi else None
  | None => None
  end.

(** Concrete routes, stores and environments of the examples. *)
Definition storesA : list Server.SearchPath :=
  [Server.mkSearchPath (str "/srv/a") None].
Definition storesAB : list Server.SearchPath :=
  [Server.mkSearchPath (str "/srv/ab") None].

Definition routeEmptyMatch : Server.CompiledSearchPath :=
  Server.mkCompiled (Server.anchored []) storesA.

Definition plainServeContent (r : Server.Request) (f : list ascii)
  (w : Server.Response) : Server.Response :=
  Server.write f
    (Server.WriteHeader Server.StatusOK
       (Server.headerSet (str "Content-Length") (Server.FormatInt (len f)) w)).

Definition envEmptyMatch : Server.Env :=
  Server.mkEnv slash (str "application/octet-stream")
    (Server.anchored []) [] [Server.anchored []] [routeEmptyMatch]
    (fun _ => Some (str "data")) (fun b => b) plainServeContent.

(** A route over one .pkz archive holding one deflate entry. *)
Definition entryX : Server.PakFileEntry :=
  Server.mkPakFileEntry 2 4 305419896 11 1700000000 8.

Definition fileX : list ascii := str "..DATA..".

Definition envPkz : Server.Env :=
  Server.mkEnv slash (str "application/x-quake2-data")
    (Server.anchored []) [] []
    [Server.mkCompiled (Server.anchored (str "/"))
       [Server.mkSearchPath (str "/srv/x.pkz")
          (Some [(str "maps/a.bsp", entryX)])]]
    (fun name => if eqs name (str "/srv/x.pkz") then Some fileX else None)
    (fun b => b ++ b) plainServeContent.

Definition reqGet (p : string) (accept : list string) : Server.Request :=
  Server.mkRequest (str "GET") (str p) [] (map str accept) true.

(** A route over an archive and a directory, with both gates configured. *)
Definition storesGate : list Server.SearchPath :=
  [Server.mkSearchPath (str "/srv/x.pkz") (Some [(str "maps/a.bsp", entryX)]);
   Server.mkSearchPath (str "/srv/q2") None].

Definition envGate : Server.Env :=
  Server.mkEnv slash (str "application/x-quake2-data")
    (Server.anchored []) [Server.anchored (str "secret")]
    [Server.anchored (str "maps/")]
    [Server.mkCompiled (Server.anchored (str "/")) storesGate]
    (fun name => if eqs name (str "/srv/x.pkz") then Some fileX else None)
    (fun b => b) plainServeContent.

(** The elements of a slash-separated path, and the elements [path.Clean]
    keeps. *)
Definition elements (p : list ascii) : list (list ascii) := Split slash p.

Definition cleanElements (p : list ascii) : list (list ascii) :=
  rev (cleanLoop (HasPrefix p [slash]) (Split slash p) []).

(** A real path element: not empty, not "." and not "..". *)
Definition realElement (e : list ascii) : bool :=
  negb (eqs e []) && negb (eqs e dotS) && negb (eqs e dotdotS).


(** A finder that holds the read lock. *)
Definition holding (f : Reload.FindPC) : bool :=
  match f with
  | Reload.FindLocked | Reload.FindRanged _ => true
  | _ => false
  end.

(** What holds in every state reached from [Reload.initial old _ _]. *)
Definition reloadInv (W : Reload.World) (cfgs : list Reload.ConfigSearchPath)
  (old : list Server.CompiledSearchPath) (s : Reload.State) : Prop :=
  (Reload.writer s = true -> Reload.readers s = O)
  /\ Reload.readers s = length (filter holding (Reload.finders s))
  /\ match Reload.scanner s with
     | Reload.ScanIdle => Reload.writer s = false /\ Reload.table s = old
     | Reload.ScanLocked => Reload.writer s = true /\ Reload.table s = old
     | Reload.ScanLoop todo =>
         Reload.writer s = true
         /\ exists done,
              cfgs = done ++ todo
              /\ Reload.scanRoutes W done [] []
                 = (Reload.table s, Reload.dirCache s)
     | Reload.ScanDone =>
         Reload.writer s = false
         /\ Reload.table s = Reload.newTable W cfgs
     end
  /\ forall f t, In f (Reload.finders s) -> Reload.seen f = Some t ->
                 t = old \/ t = Reload.newTable W cfgs.

(** A world and a configuration with two routes. *)
Definition worldTwo : Reload.World :=
  Reload.mkWorld Server.anchored
    (fun name => [Server.mkSearchPath name None]).

Definition cfgsTwo : list Reload.ConfigSearchPath :=
  [Reload.mkConfig (str "/a/") [str "/srv/a"];
   Reload.mkConfig (str "/") [str "/srv/base"]].

(** The conditions of the read contract on the bytes of an archive: the
    header can be read and the ident differs from "PACK", or the
    directory length is not a multiple of 64, or it holds more than 4096
    entries, or the directory ends beyond the largest offset, or some
    directory entry that can be read ends beyond it. *)
Definition violatesContract (r : list ascii) : Prop :=
  exists header,
    Pak.readHeader r 0 = Ok header
    /\ (Pak.Ident header <> Pak.pakIdent
        \/ Pak.Dirlen header mod 64 <> 0
        \/ Pak.Dirlen header / 64 > 4096
        \/ Pak.Dirofs header + Pak.Dirlen header > 2 ^ 31 - 1
        \/ exists i entry,
             0 <= i < Pak.Dirlen header / 64
             /\ Pak.readEntry r (Pak.Dirofs header + 64 * i) = Ok entry
             /\ Pak.Filepos entry + Pak.Filelen entry > 2 ^ 31 - 1).

(** An archive with one entry that lies beyond the largest offset, and
    one whose directory length is not a multiple of 64. *)
Definition pakBadFilePos : list ascii :=
  Pak.encodeHeader (Pak.mkHeader Pak.pakIdent 12 64)
  ++ Pak.encodeEntry (Pak.mkEntry (Pak.copyName (str "a")) 4294967295 1).

Definition pakBadDirLen : list ascii :=
  Pak.encodeHeader (Pak.mkHeader Pak.pakIdent 12 65)
  ++ Pak.encodeEntry (Pak.mkEntry (Pak.copyName (str "a")) 0 12)
  ++ [zero].

(** The directory a writer produces for [pairs] when the first content
    byte is at [pos], and the [File]s a reader returns for it. *)
Fixpoint layout (pos : Z) (pairs : list (list ascii * list ascii))
  : list Pak.pakEntry :=
  match pairs with
  | [] => []
  | (name, content) :: t =>
      Pak.mkEntry (Pak.copyName name) pos (len content)
      :: layout (pos + len content) t
  end.

Definition fileOf (e : Pak.pakEntry) : Pak.File :=
  Pak.mkFile (untilZero (Pak.Name e)) (Pak.Filepos e) (Pak.Filelen e).

Definition totalLen (pairs : list (list ascii * list ascii)) : Z :=
  len (concat (map snd pairs)).

(** A name the format can hold: at most 56 bytes, none of them zero. *)
Definition nameOK (p : list ascii * list ascii) : Prop :=
  len (fst p) <= 56 /\ ~ In zero (fst p).

(** [normalizeName] returns real, lowercase, backslash-free elements
    joined by slashes. *)
Definition cleanName (segs : list (list ascii)) : Prop :=
  forallb realElement segs = true
  /\ Forall (fun e => ~ In slash e) segs
  /\ Forall (fun e => ~ In backslash e) segs
  /\ map ToLower segs = segs.


(** A writer between two entries: open, with the cursor at the end of
    what was written. *)
Definition writerReady (pak : Pak.Writer) : Prop :=
  Pak.closed pak = false
  /\ Pak.wsPos (Pak.w pak) = Pak.offset pak
  /\ len (Pak.wsBuf (Pak.w pak)) = Pak.offset pak.

(** A directory entry a reader accepts. *)
Definition entryOK (e : Pak.pakEntry) : Prop :=
  len (Pak.Name e) = 56
  /\ 0 <= Pak.Filepos e /\ 0 <= Pak.Filelen e
  /\ Pak.Filepos e + Pak.Filelen e <= 2 ^ 31 - 1.


(** ** Vocabulary of the further properties *)

(** A [File] as [Reader.init] hands it out: inside the largest offset,
    with a name of at most 56 bytes and no zero byte. *)
Definition fileOK (f : Pak.File) : Prop :=
  0 <= Pak.fFilepos f /\ 0 <= Pak.fFilelen f
  /\ Pak.fFilepos f + Pak.fFilelen f <= 2 ^ 31 - 1
  /\ len (Pak.fName f) <= 56
  /\ ~ In zero (Pak.fName f).

(** An archive holding the one file foo with the content "test". *)
Definition pakOneFile : list ascii :=
  Pak.encodeHeader (Pak.mkHeader Pak.pakIdent 16 64)
  ++ str "test"
  ++ Pak.encodeEntry (Pak.mkEntry (Pak.copyName (str "foo")) 12 4).

(** The calls a program makes on an open [Writer], errors ignored. *)
Inductive WriterOp : Type :=
| OpCreate (name : list ascii)
| OpWrite (p : list ascii).

Definition applyOp (pak : Pak.Writer) (op : WriterOp) : Pak.Writer :=
  match op with
  | OpCreate name => fst (Pak.Create name pak)
  | OpWrite p => fst (Pak.Write p pak)
  end.

Definition runOps (ops : list WriterOp) (pak : Pak.Writer) : Pak.Writer :=
  fold_left applyOp ops pak.

(** [io.Copy(pak, f)] for a source delivered in [chunks]: one [Write] per
    chunk, stopping at the first error. *)
Fixpoint writeChunks (chunks : list (list ascii)) (pak : Pak.Writer)
  : Pak.Writer * option error :=
  match chunks with
  | [] => (pak, None)
  | c :: t =>
      match Pak.Write c pak with
      | (pak', None) => writeChunks t pak'
      | failed => failed
      end
  end.

(** The entries [es] tile the bytes from [start] to [stop] in order. *)
Fixpoint contiguous (start : Z) (es : list Pak.pakEntry) (stop : Z) : Prop :=
  match es with
  | [] => start = stop
  | e :: t =>
      Pak.Filepos e = start /\ 0 <= Pak.Filelen e
      /\ contiguous (start + Pak.Filelen e) t stop
  end.

(** What every open [Writer] keeps. *)
Definition writerInv (pak : Pak.Writer) : Prop :=
  Pak.closed pak = false
  /\ Pak.wsPos (Pak.w pak) = Pak.offset pak
  /\ len (Pak.wsBuf (Pak.w pak)) = Pak.offset pak
  /\ 12 <= Pak.offset pak <= 2 ^ 31 - 1
  /\ len (Pak.files pak) <= 4096
  /\ Forall (fun e => len (Pak.Name e) = 56) (Pak.files pak)
  /\ contiguous 12 (Pak.setLastLen (Pak.files pak) (Pak.offset pak))
       (Pak.offset pak).

(** Some value of the Accept-Encoding header lists [enc]: one of its
    comma-separated elements is [enc] once trimmed and lowercased. *)
Definition offers (enc : list ascii) (r : Server.Request) : bool :=
  existsb
    (fun value =>
       existsb (fun e => eqs (ToLower (TrimSpace e)) enc)
               (Split ","%char value))
    (Server.AcceptEncoding r).

(** The request [r] made with another method. *)
Definition withMethod (m : list ascii) (r : Server.Request) : Server.Request :=
  Server.mkRequest m (Server.URLPath r) (Server.Referer r)
    (Server.AcceptEncoding r) (Server.ProtoAtLeast11 r).

Definition isArchive (s : Server.SearchPath) : bool :=
  match Server.files s with Some _ => true | None => false end.

(** A route over the archive [pakOneFile], as [scanpak] scans it. *)
Definition entryFoo : Server.PakFileEntry :=
  Server.mkPakFileEntry 12 4 0 0 0 0.

Definition envPak : Server.Env :=
  Server.mkEnv slash (str "application/x-quake2-data")
    (Server.anchored []) [] []
    [Server.mkCompiled (Server.anchored (str "/"))
       [Server.mkSearchPath (str "/srv/pak0.pak")
          (Some [(str "foo", entryFoo)])]]
    (fun name => if eqs name (str "/srv/pak0.pak") then Some pakOneFile
                 else None)
    (fun b => b) plainServeContent.

(** The map entry [scanpak] makes of a file of the archive. *)
Definition scannedEntry (f : Pak.File) : list ascii * Server.PakFileEntry :=
  (Server.normalizeName (Pak.fName f),
   Server.mkPakFileEntry (Pak.fFilepos f) (Pak.fFilelen f) 0 0 0 0).

(** ** pakutil: the names of files created and extracted *)

Module Pakutil.




End Pakutil.

(** Every entry of the scan cache is what scanning its directory
    gives. *)
Definition cacheOK (W : Reload.World) (cache : Reload.DirCache) : Prop :=
  forall name sp, Reload.cacheGet cache name = Some sp ->
                  sp = Reload.scanFS W name.

(** The route [scanSearchPaths] makes of one configured search path. *)
Definition routeOf (W : Reload.World) (cfg : Reload.ConfigSearchPath)
  : Server.CompiledSearchPath :=
  Server.mkCompiled (Reload.compile W (Reload.Match cfg))
    (concat (map (Reload.scanFS W) (Reload.Search cfg))).

(** * Properties *)

(** ** Sequences *)

(** [path.Clean] on the examples of its documentation. *)
Example clean_examples :
  map Clean (map str ["a/c"; "a//c"; "a/c/."; "a/c/b/.."; "/../a/c";
                      "/../a/b/../././/c"; ""; "abc/"; "../../abc";
                      "abc/def/../../.."; "/"; "//abc"; "a/../.."; "./"]%string)
  = map str ["a/c"; "a/c"; "a/c"; "a/c"; "/a/c"; "/a/c"; "."; "abc";
             "../../abc"; ".."; "/"; "/abc"; ".."; "."]%string.
Proof. vm_compute. reflexivity. Qed.

Lemma drop_skipn {A : Type} (l : list A) :
  forall n, drop n l = skipn (Z.to_nat n) l.
Proof.
  induction l as [|x t IH]; intros n; simpl.
  - now rewrite skipn_nil.
  - destruct (n <=? 0) eqn:E.
    + apply Z.leb_le in E. now replace (Z.to_nat n) with O by lia.
    + apply Z.leb_gt in E. rewrite IH.
      replace (Z.to_nat n) with (S (Z.to_nat (n - 1))) by lia. reflexivity.
Qed.

Lemma take_firstn {A : Type} (l : list A) :
  forall n, take n l = firstn (Z.to_nat n) l.
Proof.
  induction l as [|x t IH]; intros n; simpl.
  - now rewrite firstn_nil.
  - destruct (n <=? 0) eqn:E.
    + apply Z.leb_le in E. now replace (Z.to_nat n) with O by lia.
    + apply Z.leb_gt in E. rewrite IH.
      replace (Z.to_nat n) with (S (Z.to_nat (n - 1))) by lia. reflexivity.
Qed.

Lemma len_app {A : Type} (a b : list A) : len (a ++ b) = len a + len b.
Proof. unfold len. rewrite length_app. lia. Qed.

Lemma len_nonneg {A : Type} (a : list A) : 0 <= len a.
Proof. unfold len. lia. Qed.

Lemma drop_app_len {A : Type} (a b : list A) : drop (len a) (a ++ b) = b.
Proof.
  rewrite drop_skipn. unfold len. rewrite Nat2Z.id.
  rewrite skipn_app, skipn_all, Nat.sub_diag. reflexivity.
Qed.

Lemma take_app_len {A : Type} (a b : list A) : take (len a) (a ++ b) = a.
Proof.
  rewrite take_firstn. unfold len. rewrite Nat2Z.id.
  rewrite firstn_app, firstn_all, Nat.sub_diag. simpl. apply app_nil_r.
Qed.

Lemma eqs_true (a b : list ascii) : eqs a b = true <-> a = b.
Proof.
  revert b. induction a as [|x a IH]; intros [|y b]; simpl;
    try (split; congruence).
  rewrite andb_true_iff, Ascii.eqb_eq, IH. split.
  - intros [-> ->]. reflexivity.
  - intros H. inversion H. auto.
Qed.

Lemma eqs_refl (a : list ascii) : eqs a a = true.
Proof. now apply eqs_true. Qed.

(** ** Archive order in [scandir] *)

Lemma ltS_asym : forall a b, ltS a b = true -> ltS b a = false.
Proof.
  induction a as [|x a IH]; intros [|y b]; simpl; try congruence.
  destruct (byteZ x <? byteZ y) eqn:E1; destruct (byteZ y <? byteZ x) eqn:E2;
    try congruence.
  - apply Z.ltb_lt in E1. apply Z.ltb_lt in E2. lia.
  - apply IH.
Qed.

Lemma pakLess_asym x y :
  Server.pakLess x y = true -> Server.pakLess y x = false.
Proof.
  unfold Server.pakLess.
  destruct (HasPrefix (ToLower y) (str "pak")) eqn:Py;
    destruct (HasPrefix (ToLower x) (str "pak")) eqn:Px; simpl;
    try congruence.
  - destruct (Server.atoi (ToLower y)) as [vy|];
      destruct (Server.atoi (ToLower x)) as [vx|];
      try apply ltS_asym.
    intros H. apply Z.ltb_lt in H. apply Z.ltb_ge. lia.
  - apply ltS_asym.
Qed.

Section InsertionSort.
Context {A : Type} (less : A -> A -> bool).
Hypothesis less_asym : forall x y, less x y = true -> less y x = false.








End InsertionSort.






(** ** Route resolution *)

Lemma findLoop_none p : forall routes found longest,
  0 <= longest ->
  (forall s hi, In s routes -> candidate p s = Some hi -> hi <= longest) ->
  Server.findLoop routes p found longest = (found, longest).
Proof.
  induction routes as [|s rest IH]; intros found longest H0 H; simpl; auto.
  assert (Hrest : forall s' hi, In s' rest -> candidate p s' = Some hi ->
                                hi <= longest) by (intros; eapply H; simpl; eauto).
  pose proof (H s) as Hs. unfold candidate in Hs.
  destruct (Server.match_ s p) as [[lo hi]|]; auto.
  destruct (lo =? 0) eqn:Elo; simpl in *; auto.
  destruct (hi >? longest) eqn:Ehi; auto.
  exfalso. rewrite Z.gtb_ltb in Ehi. apply Z.ltb_lt in Ehi.
  destruct (hi >? 0) eqn:E0.
  - specialize (Hs hi (or_introl eq_refl) eq_refl). lia.
  - rewrite Z.gtb_ltb in E0. apply Z.ltb_ge in E0. lia.
Qed.

Lemma findLoop_select p s hi post : forall pre found longest,
  0 <= longest < hi ->
  candidate p s = Some hi ->
  (forall s' h, In s' pre -> candidate p s' = Some h -> h < hi) ->
  (forall s' h, In s' post -> candidate p s' = Some h -> h <= hi) ->
  Server.findLoop (pre ++ s :: post) p found longest
  = (Some (Server.search s), hi).
Proof.
  induction pre as [|s' pre IH]; intros found longest Hl Hs Hpre Hpost; simpl.
  - unfold candidate in Hs.
    destruct (Server.match_ s p) as [[lo h]|]; try discriminate.
    destruct (lo =? 0); simpl in *; try discriminate.
    destruct (h >? 0); try discriminate. inversion Hs; subst h.
    replace (hi >? longest) with true
      by (symmetry; rewrite Z.gtb_ltb; apply Z.ltb_lt; lia).
    apply findLoop_none; [lia | exact Hpost].
  - assert (Hpre' : forall s'' h, In s'' pre -> candidate p s'' = Some h ->
                                  h < hi) by (intros; eapply Hpre; simpl; eauto).
    pose proof (Hpre s') as H'. unfold candidate in H'.
    destruct (Server.match_ s' p) as [[lo h]|]; [|now apply IH].
    destruct (lo =? 0); simpl in *; [|now apply IH].
    destruct (h >? longest) eqn:E; [|now apply IH].
    rewrite Z.gtb_ltb in E. apply Z.ltb_lt in E.
    replace (h >? 0) with true in H'
      by (symmetry; rewrite Z.gtb_ltb; apply Z.ltb_lt; lia).
    specialize (H' h (or_introl eq_refl) eq_refl).
    apply IH; auto. lia.
Qed.

(** C4, as the code has it: the resolver matches each route against the
    cleaned, lowercased path, keeps only the NON-EMPTY matches that begin
    at offset 0, selects the one with the largest end (the first
    registered among equals) and returns the path without the matched
    prefix; with ^/a/ and ^/a/b/ registered in either order, /a/b/c
    resolves through ^/a/b/ to the asset path c; when no route has such
    a match, or the remainder is empty, the handler answers 404. *)
Theorem C4_longest_nonempty_match :
  (forall routes u,
      (forall s hi, In s routes ->
                    candidate (ToLower (Clean u)) s = Some hi -> False) ->
      Server.findSearchPath routes u = (None, ToLower (Clean u)))
  /\ (forall pre s post u hi,
         candidate (ToLower (Clean u)) s = Some hi ->
         (forall s' h, In s' pre ->
                       candidate (ToLower (Clean u)) s' = Some h -> h < hi) ->
         (forall s' h, In s' post ->
                       candidate (ToLower (Clean u)) s' = Some h -> h <= hi) ->
         Server.findSearchPath (pre ++ s :: post) u
         = (Some (Server.search s), drop hi (ToLower (Clean u))))
  /\ Server.findSearchPath
       [Server.mkCompiled (Server.anchored (str "/a/")) storesA;
        Server.mkCompiled (Server.anchored (str "/a/b/")) storesAB]
       (str "/a/b/c") = (Some storesAB, str "c")
  /\ Server.findSearchPath
       [Server.mkCompiled (Server.anchored (str "/a/b/")) storesAB;
        Server.mkCompiled (Server.anchored (str "/a/")) storesA]
       (str "/a/b/c") = (Some storesAB, str "c")
  /\ (forall E r,
         Server.tampered E r = false ->
         Server.MatchString (Server.refererCheck E) (Server.Referer r) = true ->
         fst (Server.findSearchPath (Server.searchPaths E) (Server.URLPath r))
           = None
         \/ snd (Server.findSearchPath (Server.searchPaths E)
                   (Server.URLPath r)) = [] ->
         Server.handler E r
         = Server.WriteHeader Server.StatusNotFound Server.noResponse).
Proof.
  split; [|split; [|split; [|split]]].
  - intros routes u H. unfold Server.findSearchPath.
    rewrite findLoop_none.
    + f_equal. rewrite drop_skipn. reflexivity.
    + lia.
    + intros s hi Hin Hc. exfalso. eauto.
  - intros pre s post u hi Hc Hpre Hpost. unfold Server.findSearchPath.
    assert (0 < hi).
    { unfold candidate in Hc.
      destruct (Server.match_ s _) as [[lo h]|]; try discriminate.
      destruct (lo =? 0); simpl in Hc; try discriminate.
      destruct (h >? 0) eqn:E; try discriminate. inversion Hc; subst.
      rewrite Z.gtb_ltb in E. now apply Z.ltb_lt in E. }
    rewrite (findLoop_select _ s hi post pre); auto. lia.
  - vm_compute. reflexivity.
  - vm_compute. reflexivity.
  - intros E r Ht Hr H. unfold Server.handler. rewrite Ht, Hr. simpl.
    destruct (Server.findSearchPath _ _) as [[search|] p]; simpl in H; auto.
    destruct H as [H|H]; [discriminate|]. subst p. reflexivity.
Qed.

(** C4 as stated fails for a route whose match at offset 0 is empty: it
    is the only match, so the claim selects it and passes the asset path
    /x on; the code selects no route and the handler answers 404. *)
Lemma C4_counterexample :
  Server.match_ routeEmptyMatch (ToLower (Clean (str "/x"))) = Some (0, 0)
  /\ Server.findSearchPath [routeEmptyMatch] (str "/x") = (None, str "/x")
  /\ Server.status
       (Server.handler envEmptyMatch
          (Server.mkRequest (str "GET") (str "/x") [] [] true)) = 404.
Proof. repeat split; vm_compute; reflexivity. Qed.

Lemma C4_longest_nonempty_match_witness :
  Server.findSearchPath
    ([] ++ Server.mkCompiled (Server.anchored (str "/a/")) storesA :: [])
    (str "/a/q") = (Some storesA, drop 3 (ToLower (Clean (str "/a/q")))).
Proof.
  apply (proj1 (proj2 C4_longest_nonempty_match)).
  - vm_compute. reflexivity.
  - intros s' h [].
  - intros s' h [].
Defined.

(** ** The request handler *)

Lemma serveLoop_firstHit E r p aP aD g d w : forall stores,
  Server.serveLoop E r p aP aD g d stores w
  = match firstHit E p aP aD stores with
    | None => Server.WriteHeader Server.StatusNotFound w
    | Some (HitDir f) =>
        Server.ServeContent E r f
          (Server.headerSet (str "Content-Type") (Server.ContentType E) w)
    | Some (HitPak entry f) => Server.serveEntry E r g d entry f w
    end.
Proof.
  induction stores as [|s rest IH]; simpl; auto.
  destruct (Server.files s) as [m|].
  - destruct aP; simpl; auto.
    destruct (Server.mapGet m p) as [entry|]; auto.
    destruct (Server.osOpen E (Server.path s)); auto.
  - destruct aD; simpl; auto.
    destruct (Server.osOpen E _); simpl; auto.
Qed.

(** [handler] computes the outcome [resolve] and writes the matching
    response. *)
Lemma handler_resolve E r :
  Server.handler E r
  = match resolve E r with
    | Forbidden =>
        Server.closeWithError r Server.StatusForbidden Server.noResponse
    | NotFound => Server.WriteHeader Server.StatusNotFound Server.noResponse
    | Served h => render E r h
    end.
Proof.
  unfold Server.handler, resolve.
  destruct (Server.tampered E r); simpl; auto.
  destruct (Server.MatchString _ _); simpl; auto.
  destruct (Server.findSearchPath _ _) as [[stores|] p]; auto.
  destruct p as [|c p]; auto.
  replace (len (c :: p) =? 0) with false
    by (symmetry; apply Z.eqb_neq; unfold len; simpl; lia).
  fold (allowPakOf E (c :: p)). fold (allowDirOf E (c :: p)).
  destruct (negb (allowPakOf E (c :: p)) && negb (allowDirOf E (c :: p))); auto.
  unfold render.
  destruct (Server.parseAcceptEncoding r) as [g d].
  rewrite serveLoop_firstHit.
  destruct (firstHit _ _ _ _ _) as [[f|entry f]|]; auto.
Qed.

Lemma firstHit_absent E p aP aD : forall stores,
  absent E p stores -> firstHit E p aP aD stores = None.
Proof.
  induction stores as [|s rest IH]; intros H; simpl; auto.
  pose proof (H s (or_introl eq_refl)) as Hs.
  rewrite IH by (intros s' Hin; apply H; now right).
  destruct (Server.files s) as [m|].
  - rewrite Hs. now destruct aP.
  - rewrite Hs. now destruct aD.
Qed.



Example FormatInt_examples :
  map Server.FormatInt [0; 7; 22; 1024; 4294967313]
  = map str ["0"; "7"; "22"; "1024"; "4294967313"]%string.
Proof. vm_compute. reflexivity. Qed.

Example accept_encoding_examples :
  map (fun vs => Server.parseAcceptEncoding (reqGet "/" vs))
      [[]; ["gzip"]; ["deflate"]; ["br"]; [" GZIP ,deflate"];
       ["identity"; "deflate"]; ["gzip;q=0"]]%string
  = [(false, false); (true, false); (false, true); (false, false);
     (true, true); (false, true); (false, false)].
Proof. vm_compute. reflexivity. Qed.

Example negotiation_bodies :
  map (fun vs => Server.body (Server.handler envPkz (reqGet "/maps/a.bsp" vs)))
      [["gzip"]; ["deflate"]; []]%string
  = [gzipHeader entryX ++ str "DATA" ++ gzipTrailer entryX;
     str "DATA"; str "DATADATA"].
Proof. vm_compute. reflexivity. Qed.

(** C6: a request whose asset path both gates reject gets the very
    response of a request whose asset path is in no backing store:
    status 404, no header and no body. *)
Theorem C6_denied_is_not_found :
  forall E r1 r2 stores1 p1 stores2 p2,
    resolve E r1 <> Forbidden -> resolve E r2 <> Forbidden ->
    Server.findSearchPath (Server.searchPaths E) (Server.URLPath r1)
      = (Some stores1, p1) ->
    p1 <> [] ->
    allowPakOf E p1 = false -> allowDirOf E p1 = false ->
    Server.findSearchPath (Server.searchPaths E) (Server.URLPath r2)
      = (Some stores2, p2) ->
    absent E p2 stores2 ->
    Server.handler E r1 = Server.handler E r2
    /\ Server.handler E r1 = Server.mkResponse 404 [] [].
Proof.
  intros E r1 r2 stores1 p1 stores2 p2 H1 H2 Hf1 Hp1 HaP HaD Hf2 Habs.
  assert (R1 : resolve E r1 = NotFound).
  { revert H1. unfold resolve. destruct (_ || _); [congruence|].
    rewrite Hf1. destruct p1; [congruence|]. now rewrite HaP, HaD. }
  assert (R2 : resolve E r2 = NotFound).
  { revert H2. unfold resolve. destruct (_ || _); [congruence|].
    rewrite Hf2. destruct p2; auto.
    rewrite firstHit_absent by assumption. now destruct (_ && _). }
  rewrite !handler_resolve, R1, R2. split; reflexivity.
Qed.



Lemma C6_denied_is_not_found_witness :
  Server.handler envGate (reqGet "/secret/rcon.cfg" [])
  = Server.handler envGate (reqGet "/maps/none.bsp" []).
Proof.
  refine (proj1 (C6_denied_is_not_found envGate
                   (reqGet "/secret/rcon.cfg" []) (reqGet "/maps/none.bsp" [])
                   storesGate (str "secret/rcon.cfg")
                   storesGate (str "maps/none.bsp") _ _ _ _ _ _ _ _)).
  - vm_compute. discriminate.
  - vm_compute. discriminate.
  - vm_compute. reflexivity.
  - discriminate.
  - vm_compute. reflexivity.
  - vm_compute. reflexivity.
  - vm_compute. reflexivity.
  - intros s [<-|[<-|[]]]; vm_compute; reflexivity.
Defined.





(** ** Paths: [Split], [Join], [path.Clean] and [normalizeName] *)

Lemma Split_nonempty sep s : Split sep s <> [].
Proof.
  destruct s as [|c t]; simpl; [discriminate|].
  destruct (Ascii.eqb c sep); [discriminate|].
  destruct (Split sep t); discriminate.
Qed.

Lemma Split_app_sep sep b : forall a,
  Split sep (a ++ sep :: b) = Split sep a ++ Split sep b.
Proof.
  induction a as [|c a IH]; simpl.
  - now rewrite Ascii.eqb_refl.
  - destruct (Ascii.eqb c sep); rewrite IH; auto.
    pose proof (Split_nonempty sep a).
    destruct (Split sep a); [congruence|reflexivity].
Qed.

Lemma Split_no_sep sep : forall s, ~ In sep s -> Split sep s = [s].
Proof.
  induction s as [|c t IH]; intros H; simpl; auto.
  destruct (Ascii.eqb c sep) eqn:E.
  - apply Ascii.eqb_eq in E. subst. exfalso. apply H. now left.
  - rewrite IH; auto. intros Hin. apply H. now right.
Qed.

Lemma Split_elements_no_sep sep : forall s,
  Forall (fun e => ~ In sep e) (Split sep s).
Proof.
  induction s as [|c t IH]; simpl.
  - repeat constructor. intros [].
  - destruct (Ascii.eqb c sep) eqn:E.
    + constructor; auto.
    + destruct (Split sep t) as [|seg rest]; inversion IH; subst.
      * repeat constructor. intros [->|[]]. now rewrite Ascii.eqb_refl in E.
      * constructor; auto. intros [->|Hin]; auto.
        now rewrite Ascii.eqb_refl in E.
Qed.

Lemma Join_cons e t : t <> [] -> Join (e :: t) = e ++ slash :: Join t.
Proof. destruct t; [congruence|reflexivity]. Qed.


Lemma Split_Join : forall segs,
  segs <> [] -> Forall (fun e => ~ In slash e) segs ->
  Split slash (Join segs) = segs.
Proof.
  induction segs as [|e t IH]; intros Hne HF; [congruence|].
  inversion HF; subst.
  destruct t as [|e' t].
  - simpl. now apply Split_no_sep.
  - rewrite Join_cons by discriminate. rewrite Split_app_sep.
    rewrite Split_no_sep by assumption. rewrite IH; auto. discriminate.
Qed.



(** Cleaning a rooted path leaves real elements only, each of them an
    element of the input. *)
Lemma cleanLoop_rooted_In e : forall elems out,
  In e (cleanLoop true elems out) ->
  In e out \/ (In e elems /\ realElement e = true).
Proof.
  induction elems as [|x t IH]; intros out H; simpl in *; auto.
  destruct (eqs x []) eqn:E1; [destruct (IH _ H); intuition|].
  destruct (eqs x dotS) eqn:E2; [destruct (IH _ H); intuition|].
  destruct (eqs x dotdotS) eqn:E3.
  - destruct out as [|top below]; [destruct (IH _ H); intuition|].
    destruct (eqs top dotdotS); destruct (IH _ H) as [Hin|Hin];
      simpl; intuition.
  - destruct (IH _ H) as [[<-|Hin]|Hin]; try intuition.
    right. split; [now left|]. unfold realElement. now rewrite E1, E2, E3.
Qed.

Lemma lowerByte_special c d :
  d = slash \/ d = dot \/ d = backslash ->
  (lowerByte c = d <-> c = d).
Proof.
  intros [ -> | [ -> | -> ] ];
    destruct c as [[] [] [] [] [] [] [] []]; vm_compute;
    split; intros H; try reflexivity; try discriminate H.
Qed.

Lemma lowerByte_idem c : lowerByte (lowerByte c) = lowerByte c.
Proof. destruct c as [[] [] [] [] [] [] [] []]; vm_compute; reflexivity. Qed.

Lemma ToLower_idem s : ToLower (ToLower s) = ToLower s.
Proof.
  unfold ToLower. rewrite map_map. apply map_ext. apply lowerByte_idem.
Qed.

Lemma ToLower_app a b : ToLower (a ++ b) = ToLower a ++ ToLower b.
Proof. apply map_app. Qed.

Lemma ToLower_Join : forall segs,
  ToLower (Join segs) = Join (map ToLower segs).
Proof.
  induction segs as [|e t IH]; auto.
  destruct t as [|e' t]; auto.
  rewrite (Join_cons e (e' :: t)) by discriminate.
  change (map ToLower (e :: e' :: t))
    with (ToLower e :: map ToLower (e' :: t)).
  rewrite (Join_cons (ToLower e) (map ToLower (e' :: t)))
    by (simpl; discriminate).
  rewrite ToLower_app, <- IH. reflexivity.
Qed.

Lemma ToLower_In_special d s :
  d = slash \/ d = dot \/ d = backslash ->
  In d (ToLower s) <-> In d s.
Proof.
  intros Hd. unfold ToLower. rewrite in_map_iff. split.
  - intros (c & Hc & Hin). apply (lowerByte_special c d Hd) in Hc. now subst.
  - intros Hin. exists d. split; auto. now apply lowerByte_special.
Qed.

Lemma ToLower_realElement e : realElement (ToLower e) = realElement e.
Proof.
  unfold realElement.
  destruct e as [|c [|c' [|c'' t]]]; simpl; auto.
  - destruct (Ascii.eqb c dot) eqn:E.
    + apply Ascii.eqb_eq in E. subst. reflexivity.
    + destruct (Ascii.eqb (lowerByte c) dot) eqn:E'; auto.
      apply Ascii.eqb_eq in E'.
      apply (lowerByte_special c dot) in E'; auto. subst.
      now rewrite Ascii.eqb_refl in E.
  - assert (H : forall x, Ascii.eqb (lowerByte x) dot = Ascii.eqb x dot).
    { intros x. destruct (Ascii.eqb x dot) eqn:E.
      - apply Ascii.eqb_eq in E. subst. reflexivity.
      - destruct (Ascii.eqb (lowerByte x) dot) eqn:E'; auto.
        apply Ascii.eqb_eq in E'.
        apply (lowerByte_special x dot) in E'; auto. subst.
        now rewrite Ascii.eqb_refl in E. }
    now rewrite !H.
  - assert (H : forall x, Ascii.eqb (lowerByte x) dot = Ascii.eqb x dot).
    { intros x. destruct (Ascii.eqb x dot) eqn:E.
      - apply Ascii.eqb_eq in E. subst. reflexivity.
      - destruct (Ascii.eqb (lowerByte x) dot) eqn:E'; auto.
        apply Ascii.eqb_eq in E'.
        apply (lowerByte_special x dot) in E'; auto. subst.
        now rewrite Ascii.eqb_refl in E. }
    rewrite !H. destruct (Ascii.eqb c dot), (Ascii.eqb c' dot); reflexivity.
Qed.

Lemma drop_1_cons {A : Type} (x : A) (t : list A) : drop 1 (x :: t) = t.
Proof. rewrite drop_skipn. reflexivity. Qed.

(** The cleaned form of a rooted path: a slash and its real elements
    joined. *)
Lemma Clean_rooted m :
  Clean (slash :: m)
  = slash :: Join (rev (cleanLoop true (Split slash m) [])).
Proof.
  reflexivity.
Qed.

Lemma cleanRooted_elements m :
  let out := rev (cleanLoop true (Split slash m) []) in
  forallb realElement out = true
  /\ Forall (fun e => In e (Split slash m)) out.
Proof.
  intros out. subst out. split.
  - apply forallb_forall. intros e Hin. apply in_rev in Hin.
    apply cleanLoop_rooted_In in Hin. destruct Hin as [[]|[_ H]]. exact H.
  - apply Forall_forall. intros e Hin. apply in_rev in Hin.
    apply cleanLoop_rooted_In in Hin. destruct Hin as [[]|[H _]]. exact H.
Qed.

Lemma ReplaceAllBackslash_none n : ~ In backslash (ReplaceAllBackslash n).
Proof.
  unfold ReplaceAllBackslash. rewrite in_map_iff. intros (c & Hc & _).
  destruct (Ascii.eqb c backslash) eqn:E.
  - discriminate Hc.
  - subst c. now rewrite Ascii.eqb_refl in E.
Qed.

Lemma ReplaceAllBackslash_id n :
  ~ In backslash n -> ReplaceAllBackslash n = n.
Proof.
  unfold ReplaceAllBackslash. induction n as [|c t IH]; intros H; simpl; auto.
  destruct (Ascii.eqb c backslash) eqn:E.
  - apply Ascii.eqb_eq in E. subst. exfalso. apply H. now left.
  - rewrite IH; auto. intros Hin. apply H. now right.
Qed.

Lemma In_Split_sub sep c : forall s e,
  In e (Split sep s) -> In c e -> In c s.
Proof.
  induction s as [|x t IH]; intros e He Hc; simpl in *.
  - destruct He as [<-|[]]. destruct Hc.
  - destruct (Ascii.eqb x sep).
    + destruct He as [<-|He]; [destruct Hc|]. right. eapply IH; eauto.
    + pose proof (Split_nonempty sep t) as Hne.
      destruct (Split sep t) as [|seg rest]; [congruence|].
      destruct He as [<-|He].
      * destruct Hc as [->|Hc]; [now left|]. right.
        apply (IH seg); [now left|assumption].
      * right. apply (IH e); [now right|assumption].
Qed.

Lemma In_Join c : forall segs,
  In c (Join segs) -> c = slash \/ exists e, In e segs /\ In c e.
Proof.
  induction segs as [|e t IH]; intros H; [destruct H|].
  destruct t as [|e' t].
  - right. exists e. split; [now left|exact H].
  - rewrite Join_cons in H by discriminate.
    apply in_app_or in H. destruct H as [H|[H|H]].
    + right. exists e. split; [now left|exact H].
    + now left.
    + destruct (IH H) as [->|(x & Hx & Hc)]; [now left|].
      right. exists x. split; [now right|exact Hc].
Qed.

Lemma normalizeName_form n :
  exists segs, Server.normalizeName n = Join segs /\ cleanName segs.
Proof.
  unfold Server.normalizeName. rewrite Clean_rooted, drop_1_cons.
  set (m := ReplaceAllBackslash n).
  destruct (cleanRooted_elements m) as [Hreal Hin].
  set (out := rev (cleanLoop true (Split slash m) [])) in *.
  exists (map ToLower out). split; [apply ToLower_Join|].
  unfold cleanName. repeat split.
  - rewrite forallb_forall in *. intros e He.
    apply in_map_iff in He. destruct He as (x & <- & Hx).
    rewrite ToLower_realElement. auto.
  - apply Forall_forall. intros e He.
    apply in_map_iff in He. destruct He as (x & <- & Hx).
    rewrite ToLower_In_special by auto.
    rewrite Forall_forall in Hin.
    pose proof (Split_elements_no_sep slash m) as Hs.
    rewrite Forall_forall in Hs. auto.
  - apply Forall_forall. intros e He.
    apply in_map_iff in He. destruct He as (x & <- & Hx).
    rewrite ToLower_In_special by auto.
    rewrite Forall_forall in Hin. intros Hc.
    apply (ReplaceAllBackslash_none n). fold m.
    eapply In_Split_sub; eauto.
  - rewrite map_map. apply map_ext. apply ToLower_idem.
Qed.





(** ** Containment of the asset path *)

Lemma take_drop {A : Type} n (l : list A) : take n l ++ drop n l = l.
Proof. rewrite take_firstn, drop_skipn. apply firstn_skipn. Qed.




Lemma real_not_dotdot l :
  forallb realElement l = true -> ~ In dotdotS l.
Proof.
  rewrite forallb_forall. intros H Hin. specialize (H _ Hin).
  vm_compute in H. discriminate.
Qed.

Lemma real_elements_no_leading_slash asset :
  forallb realElement (elements asset) = true ->
  HasPrefix asset [slash] = false.
Proof.
  unfold elements. destruct asset as [|c t]; [reflexivity|]. intros H.
  destruct (Ascii.eqb c slash) eqn:E.
  - apply Ascii.eqb_eq in E. subst c.
    change (Split slash (slash :: t)) with ([] :: Split slash t) in H.
    discriminate H.
  - change (HasPrefix (c :: t) [slash]) with (Ascii.eqb slash c && true).
    rewrite Ascii.eqb_sym, E. reflexivity.
Qed.


Lemma Clean_cleanElements q :
  q <> [] ->
  Clean q = if HasPrefix q [slash] then slash :: Join (cleanElements q)
            else match cleanElements q with
                 | [] => dotS
                 | _ => Join (cleanElements q)
                 end.
Proof.
  destruct q as [|c t]; [congruence|]. intros _.
  unfold Clean, cleanElements. simpl HasPrefix.
  rewrite Ascii.eqb_sym, andb_true_r. reflexivity.
Qed.




(** ** Reload against lookups *)

Lemma scanRoutes_app W b : forall a tbl cache,
  Reload.scanRoutes W (a ++ b) tbl cache
  = let '(tbl', cache') := Reload.scanRoutes W a tbl cache in
    Reload.scanRoutes W b tbl' cache'.
Proof.
  induction a as [|cfg a IH]; intros tbl cache; simpl; auto.
  destruct (Reload.scanRoute W cfg tbl cache) as [tbl1 cache1]. apply IH.
Qed.

Lemma setNth_holding x : forall l i y,
  nth_error l i = Some y ->
  (length (filter holding (Reload.setNth i x l))
   + (if holding y then 1 else 0)
   = length (filter holding l) + (if holding x then 1 else 0))%nat.
Proof.
  induction l as [|a l IH]; intros [|i] y H; simpl in *; try discriminate.
  - inversion H; subst. destruct (holding x), (holding y); simpl; lia.
  - specialize (IH i y H). destruct (holding a); simpl; lia.
Qed.

Lemma setNth_In {A : Type} (x : A) : forall l i f,
  In f (Reload.setNth i x l) -> f = x \/ In f l.
Proof.
  induction l as [|a l IH]; intros [|i] f H; simpl in *; auto.
  - destruct H; auto.
  - destruct H as [H|H]; auto. destruct (IH _ _ H); auto.
Qed.

Lemma reloadInv_initial W cfgs old cache n :
  reloadInv W cfgs old (Reload.initial old cache n).
Proof.
  unfold reloadInv, Reload.initial. simpl. repeat split; try discriminate.
  - induction n; simpl; auto.
  - intros f t Hin. apply repeat_spec in Hin. subst. discriminate.
Qed.

Lemma reloadInv_exec W cfgs old s a s' :
  reloadInv W cfgs old s -> Reload.exec W cfgs s a = Some s' ->
  reloadInv W cfgs old s'.
Proof.
  intros (Hex & Hcnt & Hsc & Hseen) He. unfold reloadInv.
  destruct a; simpl in He.
  - (* Lock *)
    destruct (Reload.scanner s) eqn:Es; try discriminate.
    destruct (negb (Reload.writer s) && (Reload.readers s =? 0)%nat) eqn:Eg;
      try discriminate.
    inversion He; subst s'; simpl.
    apply andb_true_iff in Eg. destruct Eg as [_ Er].
    apply Nat.eqb_eq in Er. destruct Hsc as [_ Ht]. repeat split; auto.
  - (* reset *)
    destruct (Reload.scanner s) eqn:Es; try discriminate.
    inversion He; subst s'; simpl. destruct Hsc as [Hw _].
    repeat split; auto. exists []. split; reflexivity.
  - (* one route scanned *)
    destruct (Reload.scanner s) as [| |[|cfg rest]|] eqn:Es; try discriminate.
    destruct (Reload.scanRoute W cfg _ _) as [tbl cache] eqn:Er.
    inversion He; subst s'; simpl.
    destruct Hsc as [Hw (done & Hc & Hd)]. repeat split; auto.
    exists (done ++ [cfg]). split.
    + rewrite <- app_assoc. exact Hc.
    + rewrite scanRoutes_app, Hd. simpl. now rewrite Er.
  - (* Unlock *)
    destruct (Reload.scanner s) as [| |[|cfg rest]|] eqn:Es; try discriminate.
    inversion He; subst s'; simpl.
    destruct Hsc as [Hw (done & Hc & Hd)].
    rewrite app_nil_r in Hc. subst done.
    repeat split; auto; try discriminate.
    unfold Reload.newTable. now rewrite Hd.
  - (* RLock *)
    destruct (nth_error (Reload.finders s) i) as [[| | |]|] eqn:En;
      try discriminate.
    destruct (negb (Reload.writer s)) eqn:Ew; try discriminate.
    inversion He; subst s'; simpl.
    apply negb_true_iff in Ew. repeat split.
    + intros Hw. congruence.
    + pose proof (setNth_holding Reload.FindLocked _ _ _ En) as Hc.
      simpl in Hc. lia.
    + exact Hsc.
    + intros f t Hin Hs. apply setNth_In in Hin.
      destruct Hin as [->|Hin]; [discriminate|eauto].
  - (* range *)
    destruct (nth_error (Reload.finders s) i) as [[| | |]|] eqn:En;
      try discriminate.
    inversion He; subst s'; simpl. repeat split; auto.
    + pose proof (setNth_holding (Reload.FindRanged (Reload.table s))
                    _ _ _ En) as Hc.
      simpl in Hc. lia.
    + intros f t Hin Hs. apply setNth_In in Hin.
      destruct Hin as [->|Hin]; [|eauto].
      simpl in Hs. inversion Hs; subst t.
      assert (Hr : (0 < Reload.readers s)%nat).
      { rewrite Hcnt. clear - En.
        revert i En. induction (Reload.finders s) as [|a l IH];
          intros [|i] En; simpl in *; try discriminate.
        - inversion En; subst. simpl. lia.
        - specialize (IH _ En). destruct (holding a); simpl; lia. }
      destruct (Reload.writer s) eqn:Ew.
      { specialize (Hex eq_refl). lia. }
      destruct (Reload.scanner s); destruct Hsc as [Hw Ht];
        try congruence; auto.
  - (* RUnlock *)
    destruct (nth_error (Reload.finders s) i) as [[| |t0|]|] eqn:En;
      try discriminate.
    inversion He; subst s'; simpl. repeat split.
    + intros Hw. specialize (Hex Hw). lia.
    + pose proof (setNth_holding (Reload.FindDone t0) _ _ _ En) as Hc.
      simpl in Hc. lia.
    + exact Hsc.
    + intros f t Hin Hs. apply setNth_In in Hin.
      destruct Hin as [->|Hin]; [|eauto].
      apply (Hseen (Reload.FindRanged t0)); auto.
      eapply nth_error_In; eauto.
Qed.

Lemma reloadInv_run W cfgs old : forall acts s s',
  reloadInv W cfgs old s -> Reload.run W cfgs acts s = Some s' ->
  reloadInv W cfgs old s'.
Proof.
  induction acts as [|a acts IH]; intros s s' Hi Hr; simpl in Hr.
  - now inversion Hr; subst.
  - destruct (Reload.exec W cfgs s a) as [s1|] eqn:E; [|discriminate].
    eapply IH; [|exact Hr]. eapply reloadInv_exec; eauto.
Qed.

(** C5, as the code has it: [scanSearchPaths] takes the write lock first
    and holds it until the whole table is rebuilt, so while it scans no
    lookup can take the read lock; every table a lookup ranges over is
    the entirely old or the entirely new one, and the table left by the
    reload is the new one. *)
Theorem C5_reload_under_write_lock :
  forall W cfgs old cache n acts s,
    Reload.run W cfgs acts (Reload.initial old cache n) = Some s ->
    (Reload.scanning s = true ->
       Reload.writer s = true
       /\ forall i, Reload.exec W cfgs s (Reload.FindRLock i) = None)
    /\ (forall f t, In f (Reload.finders s) -> Reload.seen f = Some t ->
          t = old \/ t = Reload.newTable W cfgs)
    /\ (Reload.scanner s = Reload.ScanDone ->
          Reload.table s = Reload.newTable W cfgs).
Proof.
  intros W cfgs old cache n acts s Hrun.
  pose proof (reloadInv_run W cfgs old acts _ _
                (reloadInv_initial W cfgs old cache n) Hrun)
    as (Hex & Hcnt & Hsc & Hseen).
  split; [|split]; auto.
  - intros Hs.
    assert (Hw : Reload.writer s = true).
    { unfold Reload.scanning in Hs.
      destruct (Reload.scanner s); try discriminate; tauto. }
    split; auto. intros i. simpl.
    destruct (nth_error (Reload.finders s) i) as [[| | |]|]; auto.
    now rewrite Hw.
  - intros Hd. rewrite Hd in Hsc. tauto.
Qed.

(** C5 as stated fails: after [Lock] and the first scanned route the
    reload is still scanning, it holds the write lock, the published
    [searchPaths] holds one route of the two (neither the old table nor
    the new one), and a lookup cannot take the read lock. *)
Lemma C5_counterexample :
  exists s,
    Reload.run worldTwo cfgsTwo
      [Reload.ScanLock; Reload.ScanReset; Reload.ScanStep]
      (Reload.initial [] [] 1) = Some s
    /\ Reload.scanning s = true
    /\ Reload.writer s = true
    /\ length (Reload.table s) = 1%nat
    /\ length (Reload.newTable worldTwo cfgsTwo) = 2%nat
    /\ Reload.exec worldTwo cfgsTwo s (Reload.FindRLock 0) = None.
Proof. eexists. repeat split. Qed.

Lemma C5_reload_under_write_lock_witness :
  exists s,
    Reload.run worldTwo cfgsTwo
      [Reload.FindRLock 0; Reload.FindRange 0; Reload.FindRUnlock 0;
       Reload.ScanLock; Reload.ScanReset; Reload.ScanStep;
       Reload.ScanStep; Reload.ScanUnlock]
      (Reload.initial [] [] 1) = Some s
    /\ Reload.table s = Reload.newTable worldTwo cfgsTwo.
Proof.
  eexists. split.
  - vm_compute. reflexivity.
  - refine (proj2 (proj2 (C5_reload_under_write_lock worldTwo cfgsTwo [] [] 1
              [Reload.FindRLock 0; Reload.FindRange 0; Reload.FindRUnlock 0;
               Reload.ScanLock; Reload.ScanReset; Reload.ScanStep;
               Reload.ScanStep; Reload.ScanUnlock] _ _)) _).
    + vm_compute. reflexivity.
    + reflexivity.
Defined.

(** ** The PAK reader *)

(** C1 fails in the server's own scanner: [scanpak] accepts an archive
    whose entry has filePos + fileLen beyond 2^31-1, and one whose
    directory length is not a multiple of 64 (the odd byte is dropped),
    where the codec's [Reader.init] rejects both. *)
Theorem C1_scanpak_misses_checks :
  Pak.init pakBadFilePos = Err errBadFilePos
  /\ Server.scanpak (str "pak0.pak") pakBadFilePos
     = Ok (Server.mkSearchPath (str "pak0.pak")
             (Some [(str "a",
                     Server.mkPakFileEntry 4294967295 1 0 0 0 0)]))
  /\ Pak.init pakBadDirLen = Err errBadDirLen
  /\ Server.scanpak (str "pak0.pak") pakBadDirLen
     = Ok (Server.mkSearchPath (str "pak0.pak")
             (Some [(str "a", Server.mkPakFileEntry 0 12 0 0 0 0)])).
Proof. repeat split; vm_compute; reflexivity. Qed.

Lemma byteZ_range c : 0 <= byteZ c < 256.
Proof.
  unfold byteZ. pose proof (N_ascii_bounded c) as H.
  split; [apply N2Z.is_nonneg|].
  change 256 with (Z.of_N 256). now apply N2Z.inj_lt.
Qed.

Lemma Uint32_range b : 0 <= Uint32 b < 2 ^ 32.
Proof.
  unfold Uint32. destruct b as [|b0 [|b1 [|b2 [|b3 t]]]]; try lia.
  pose proof (byteZ_range b0). pose proof (byteZ_range b1).
  pose proof (byteZ_range b2). pose proof (byteZ_range b3). lia.
Qed.

Lemma len_drop {A : Type} (l : list A) n :
  len (drop n l) = Z.max 0 (len l - Z.max 0 n).
Proof. rewrite drop_skipn. unfold len. rewrite length_skipn. lia. Qed.

Lemma readFull_error r pos n e :
  readFull r pos n = Err e -> isFormatError e = false.
Proof.
  unfold readFull. destruct (n <=? 0); [discriminate|].
  destruct (drop pos r); [intros H; now inversion H|].
  destruct (_ <? _); intros H; now inversion H.
Qed.

Lemma readFull_ok r pos n :
  0 < n -> n <= len (drop pos r) -> exists b, readFull r pos n = Ok b.
Proof.
  intros Hn Hl. unfold readFull.
  replace (n <=? 0) with false by (symmetry; apply Z.leb_gt; lia).
  destruct (drop pos r) as [|c t] eqn:E; [unfold len in Hl; simpl in Hl; lia|].
  replace (len (c :: t) <? n) with false by (symmetry; apply Z.ltb_ge; lia).
  eauto.
Qed.

Lemma readFull_ok_len r pos n b :
  0 < n -> readFull r pos n = Ok b -> n <= len (drop pos r).
Proof.
  intros Hn. unfold readFull.
  replace (n <=? 0) with false by (symmetry; apply Z.leb_gt; lia).
  destruct (drop pos r) as [|c t] eqn:E; [discriminate|].
  destruct (len (c :: t) <? n) eqn:El; [discriminate|].
  intros _. now apply Z.ltb_ge in El.
Qed.

(** An entry can be read wherever a later one can. *)
Lemma readEntry_earlier r pos pos' entry :
  0 <= pos <= pos' -> Pak.readEntry r pos' = Ok entry ->
  exists entry', Pak.readEntry r pos = Ok entry'.
Proof.
  intros Hp. unfold Pak.readEntry.
  destruct (readFull r pos' Pak.entrySize) as [b|] eqn:E; [|discriminate].
  intros _. apply readFull_ok_len in E; [|reflexivity].
  destruct (readFull_ok r pos Pak.entrySize) as [b' Hb']; [reflexivity| |].
  - rewrite len_drop in *. unfold Pak.entrySize in *. lia.
  - rewrite Hb'. simpl. eauto.
Qed.

Lemma readEntry_error r pos e :
  Pak.readEntry r pos = Err e -> isFormatError e = false.
Proof.
  unfold Pak.readEntry.
  destruct (readFull r pos Pak.entrySize) eqn:E; [discriminate|].
  simpl. intros H. inversion H; subst. eapply readFull_error; eauto.
Qed.

Lemma readEntry_range r pos entry :
  Pak.readEntry r pos = Ok entry ->
  0 <= Pak.Filepos entry < 2 ^ 32 /\ 0 <= Pak.Filelen entry < 2 ^ 32.
Proof.
  unfold Pak.readEntry. destruct (readFull r pos Pak.entrySize); [|discriminate].
  simpl. intros H. inversion H; subst. simpl. split; apply Uint32_range.
Qed.

(** [checkEntry] fails exactly on an entry that ends beyond the largest
    offset, and then with a format error. *)
Lemma checkEntry_spec entry :
  0 <= Pak.Filepos entry < 2 ^ 32 -> 0 <= Pak.Filelen entry < 2 ^ 32 ->
  (Pak.Filepos entry + Pak.Filelen entry > 2 ^ 31 - 1 ->
     exists e, Pak.checkEntry entry = Err e /\ isFormatError e = true)
  /\ (Pak.Filepos entry + Pak.Filelen entry <= 2 ^ 31 - 1 ->
        Pak.checkEntry entry
        = Ok (Pak.mkFile (untilZero (Pak.Name entry)) (Pak.Filepos entry)
                (Pak.Filelen entry))).
Proof.
  intros Hp Hl. unfold Pak.checkEntry, Pak.MaxOffset, wrap32.
  destruct (Pak.Filelen entry >? 2 ^ 31 - 1) eqn:E1.
  - rewrite Z.gtb_ltb in E1. apply Z.ltb_lt in E1.
    split; [eauto|lia].
  - rewrite Z.gtb_ltb in E1. apply Z.ltb_ge in E1.
    rewrite Z.mod_small by lia.
    destruct (Pak.Filepos entry >? 2 ^ 31 - 1 - Pak.Filelen entry) eqn:E2;
      rewrite Z.gtb_ltb in E2;
      [apply Z.ltb_lt in E2 | apply Z.ltb_ge in E2];
      split; intros; try lia; eauto.
Qed.

Lemma readFiles_S r pos n :
  Pak.readFiles r pos (S n)
  = bind (Pak.readEntry r pos) (fun entry =>
      bind (Pak.checkEntry entry) (fun f =>
        bind (Pak.readFiles r (pos + Pak.entrySize) n) (fun fs =>
          Ok (f :: fs)))).
Proof. reflexivity. Qed.

Lemma bind_Ok {A B : Type} (a : A) (k : A -> result B) : bind (Ok a) k = k a.
Proof. reflexivity. Qed.

Lemma bind_Err {A B : Type} e (k : A -> result B) : bind (Err e) k = Err e.
Proof. reflexivity. Qed.

Lemma readFiles_format_error r : forall n pos e,
  Pak.readFiles r pos n = Err e -> isFormatError e = true ->
  exists i entry,
    0 <= i < Z.of_nat n
    /\ Pak.readEntry r (pos + 64 * i) = Ok entry
    /\ Pak.Filepos entry + Pak.Filelen entry > 2 ^ 31 - 1.
Proof.
  induction n as [|n IH]; intros pos e H Hf; [discriminate|].
  rewrite readFiles_S in H.
  destruct (Pak.readEntry r pos) as [entry|e0] eqn:Er;
    rewrite ?bind_Ok, ?bind_Err in H.
  2:{ inversion H; subst. apply readEntry_error in Er. congruence. }
  destruct (readEntry_range _ _ _ Er) as [Hp Hl].
  destruct (checkEntry_spec entry Hp Hl) as [Hbad Hgood].
  destruct (Z_le_gt_dec (Pak.Filepos entry + Pak.Filelen entry) (2 ^ 31 - 1))
    as [Hle|Hgt].
  - rewrite (Hgood Hle), bind_Ok in H.
    destruct (Pak.readFiles r (pos + Pak.entrySize) n) as [fs|e1] eqn:Ef;
      rewrite ?bind_Ok, ?bind_Err in H; [discriminate|].
    inversion H; subst e1.
    destruct (IH _ _ Ef Hf) as (i & en & Hi & Hr & Hb).
    exists (i + 1), en. split; [lia|]. split; [|exact Hb].
    unfold Pak.entrySize in Hr.
    replace (pos + 64 * (i + 1)) with (pos + 64 + 64 * i) by lia. exact Hr.
  - exists 0, entry. split; [lia|]. split; [|exact Hgt].
    replace (pos + 64 * 0) with pos by lia. exact Er.
Qed.

Lemma readFiles_bad_entry r : forall n pos i entry,
  0 <= pos -> 0 <= i < Z.of_nat n ->
  Pak.readEntry r (pos + 64 * i) = Ok entry ->
  Pak.Filepos entry + Pak.Filelen entry > 2 ^ 31 - 1 ->
  exists e, Pak.readFiles r pos n = Err e /\ isFormatError e = true.
Proof.
  induction n as [|n IH]; intros pos i entry Hpos Hi Hr Hb; [lia|].
  rewrite readFiles_S.
  destruct (readEntry_earlier r pos (pos + 64 * i) entry) as [e0 He0];
    [lia|assumption|].
  rewrite He0, bind_Ok.
  destruct (readEntry_range _ _ _ He0) as [Hp Hl].
  destruct (checkEntry_spec e0 Hp Hl) as [Hbad Hgood].
  destruct (Z_le_gt_dec (Pak.Filepos e0 + Pak.Filelen e0) (2 ^ 31 - 1))
    as [Hle|Hgt].
  - rewrite (Hgood Hle), bind_Ok.
    assert (Hi0 : i <> 0).
    { intros ->. replace (pos + 64 * 0) with pos in Hr by lia.
      rewrite Hr in He0. inversion He0; subst. lia. }
    destruct (IH (pos + Pak.entrySize) (i - 1) entry) as (e & He & Hf).
    + unfold Pak.entrySize. lia.
    + lia.
    + unfold Pak.entrySize.
      replace (pos + 64 + 64 * (i - 1)) with (pos + 64 * i) by lia. exact Hr.
    + exact Hb.
    + rewrite He, bind_Err. exists e. split; [reflexivity|exact Hf].
  - destruct (Hbad Hgt) as (e & He & Hf). rewrite He, bind_Err.
    exists e. split; [reflexivity|exact Hf].
Qed.

(** The codec's reader keeps the read contract: [Reader.init] fails with
    a format error exactly on the archives that violate it. *)
Lemma Pak_init_format_error_iff r :
  (exists e, Pak.init r = Err e /\ isFormatError e = true)
  <-> violatesContract r.
Proof.
  unfold Pak.init, violatesContract.
  destruct (Pak.readHeader r 0) as [h|e0] eqn:Eh; rewrite ?bind_Ok, ?bind_Err.
  2:{ split.
      - intros (e & He & Hf). inversion He; subst.
        unfold Pak.readHeader in Eh.
        destruct (readFull r 0 Pak.headerSize) eqn:E; [discriminate|].
        rewrite bind_Err in Eh. inversion Eh; subst.
        apply readFull_error in E. congruence.
      - intros (h & Hh & _). discriminate. }
  assert (Hr : 0 <= Pak.Dirofs h < 2 ^ 32 /\ 0 <= Pak.Dirlen h < 2 ^ 32).
  { unfold Pak.readHeader in Eh.
    destruct (readFull r 0 Pak.headerSize); [|discriminate].
    rewrite bind_Ok in Eh. inversion Eh; subst.
    unfold Pak.decodeHeader, Pak.Dirofs, Pak.Dirlen.
    split; apply Uint32_range. }
  destruct Hr as [Hofs Hlen].
  unfold Pak.entrySize, Pak.MaxFiles, Pak.MaxOffset, wrap32.
  destruct (Pak.Ident h =? Pak.pakIdent) eqn:Ei; cbn [negb].
  2:{ apply Z.eqb_neq in Ei. split.
      - intros _. exists h. split; [reflexivity|]. left. exact Ei.
      - intros _. exists errBadIdent. split; reflexivity. }
  apply Z.eqb_eq in Ei.
  destruct (Pak.Dirlen h mod 64 =? 0) eqn:Em; cbn [negb].
  2:{ apply Z.eqb_neq in Em. split.
      - intros _. exists h. split; [reflexivity|]. right. left. exact Em.
      - intros _. exists errBadDirLen. split; reflexivity. }
  apply Z.eqb_eq in Em.
  destruct (Pak.Dirlen h / 64 >? 4096) eqn:Ec.
  { rewrite Z.gtb_ltb in Ec. apply Z.ltb_lt in Ec. split.
    - intros _. exists h. split; [reflexivity|]. right. right. left. lia.
    - intros _. exists errTooManyFiles. split; reflexivity. }
  rewrite Z.gtb_ltb in Ec. apply Z.ltb_ge in Ec.
  assert (Hd : Pak.Dirlen h <= 64 * 4096).
  { pose proof (Z.div_mod (Pak.Dirlen h) 64). lia. }
  rewrite (Z.mod_small (2 ^ 31 - 1 - Pak.Dirlen h)) by lia.
  destruct (Pak.Dirofs h >? 2 ^ 31 - 1 - Pak.Dirlen h) eqn:Eo;
    rewrite Z.gtb_ltb in Eo.
  { apply Z.ltb_lt in Eo. split.
    - intros _. exists h. split; [reflexivity|]. do 3 right. left. lia.
    - intros _. exists errBadDirOfs. split; reflexivity. }
  apply Z.ltb_ge in Eo.
  assert (Hn : Z.of_nat (Z.to_nat (Pak.Dirlen h / 64)) = Pak.Dirlen h / 64).
  { apply Z2Nat.id. apply Z.div_pos; lia. }
  split.
  - intros (e & He & Hf). exists h. split; [reflexivity|]. do 4 right.
    destruct (readFiles_format_error _ _ _ _ He Hf) as (i & en & Hi & Hr & Hb).
    exists i, en. rewrite Hn in Hi.
    split; [exact Hi|]. split; [exact Hr|exact Hb].
  - intros (h' & Hh & Hv). inversion Hh; subst h'.
    destruct Hv as [Hv|[Hv|[Hv|[Hv|(i & en & Hi & Hr & Hb)]]]]; try lia.
    apply (readFiles_bad_entry r _ (Pak.Dirofs h) i en);
      [lia | rewrite Hn; exact Hi | exact Hr | exact Hb].
Qed.

(** ** Writing an archive and reading it back *)

Lemma byteZ_Zbyte v : byteZ (Zbyte v) = v mod 256.
Proof.
  unfold byteZ, Zbyte.
  pose proof (Z.mod_pos_bound v 256 eq_refl) as Hb.
  rewrite N_ascii_embedding.
  - apply Z2N.id. lia.
  - change 256%N with (Z.to_N 256). apply Z2N.inj_lt; lia.
Qed.

Lemma Uint32_PutUint32 v rest :
  0 <= v < 2 ^ 32 -> Uint32 (PutUint32 v ++ rest) = v.
Proof.
  intros Hv. unfold PutUint32, Uint32. cbn [app].
  rewrite !byteZ_Zbyte.
  change (2 ^ 8) with 256. change (2 ^ 16) with 65536.
  change (2 ^ 24) with 16777216. change (2 ^ 32) with 4294967296 in Hv.
  pose proof (Z.div_mod v 256 ltac:(lia)).
  pose proof (Z.mod_pos_bound v 256 ltac:(lia)).
  pose proof (Z.div_mod (v / 256) 256 ltac:(lia)).
  pose proof (Z.mod_pos_bound (v / 256) 256 ltac:(lia)).
  pose proof (Z.div_mod (v / 256 / 256) 256 ltac:(lia)).
  pose proof (Z.mod_pos_bound (v / 256 / 256) 256 ltac:(lia)).
  pose proof (Z.div_mod (v / 256 / 256 / 256) 256 ltac:(lia)).
  pose proof (Z.mod_pos_bound (v / 256 / 256 / 256) 256 ltac:(lia)).
  replace (v / 65536) with (v / 256 / 256)
    by (rewrite Z.div_div by lia; reflexivity).
  replace (v / 16777216) with (v / 256 / 256 / 256)
    by (rewrite !Z.div_div by lia; reflexivity).
  assert (v / 256 / 256 / 256 < 256).
  { apply Z.div_lt_upper_bound; [lia|].
    apply Z.div_lt_upper_bound; [lia|].
    apply Z.div_lt_upper_bound; lia. }
  assert (0 <= v / 256 / 256 / 256).
  { repeat apply Z.div_pos; lia. }
  rewrite (Z.mod_small (v / 256 / 256 / 256) 256) by lia.
  lia.
Qed.

Lemma len_PutUint32 v : len (PutUint32 v) = 4.
Proof. reflexivity. Qed.

Lemma drop_app_plus {A : Type} (a b : list A) k :
  0 <= k -> drop (len a + k) (a ++ b) = drop k b.
Proof.
  intros Hk. rewrite !drop_skipn. unfold len.
  replace (Z.to_nat (Z.of_nat (length a) + k))
    with (length a + Z.to_nat k)%nat by lia.
  rewrite skipn_app, skipn_all2 by lia.
  replace (length a + Z.to_nat k - length a)%nat with (Z.to_nat k) by lia.
  reflexivity.
Qed.

Lemma drop_0 {A : Type} (l : list A) : drop 0 l = l.
Proof. rewrite drop_skipn. reflexivity. Qed.

Lemma take_all {A : Type} (l : list A) n : len l <= n -> take n l = l.
Proof.
  intros H. rewrite take_firstn. apply firstn_all2. unfold len in H. lia.
Qed.

Lemma drop_all {A : Type} (l : list A) n : len l <= n -> drop n l = [].
Proof.
  intros H. rewrite drop_skipn. apply skipn_all2. unfold len in H. lia.
Qed.

Lemma len_repeat {A : Type} (x : A) n : len (repeat x n) = Z.of_nat n.
Proof. unfold len. now rewrite repeat_length. Qed.

Lemma len_copyName name : len name <= 56 -> len (Pak.copyName name) = 56.
Proof.
  intros H. unfold Pak.copyName, Pak.MaxFileName.
  rewrite take_all by assumption.
  rewrite len_app, len_repeat. pose proof (len_nonneg name). lia.
Qed.

Lemma untilZero_app_zeros n k :
  ~ In zero n -> untilZero (n ++ repeat zero k) = n.
Proof.
  induction n as [|c t IH]; intros H; simpl.
  - destruct k; reflexivity.
  - destruct (Ascii.eqb c zero) eqn:E.
    + apply Ascii.eqb_eq in E. subst. exfalso. apply H. now left.
    + rewrite IH; auto. intros Hin. apply H. now right.
Qed.

Lemma untilZero_copyName name :
  len name <= 56 -> ~ In zero name -> untilZero (Pak.copyName name) = name.
Proof.
  intros Hl Hz. unfold Pak.copyName, Pak.MaxFileName.
  rewrite take_all by assumption. now apply untilZero_app_zeros.
Qed.

Lemma len_encodeEntry e :
  len (Pak.Name e) = 56 -> len (Pak.encodeEntry e) = 64.
Proof.
  intros H. unfold Pak.encodeEntry. rewrite !len_app, !len_PutUint32. lia.
Qed.

Lemma decode_encodeEntry e :
  len (Pak.Name e) = 56 ->
  0 <= Pak.Filepos e < 2 ^ 32 -> 0 <= Pak.Filelen e < 2 ^ 32 ->
  Pak.decodeEntry (Pak.encodeEntry e) = e.
Proof.
  intros Hn Hp Hl. unfold Pak.decodeEntry, Pak.encodeEntry.
  destruct e as [name pos flen].
  cbn [Pak.Name Pak.Filepos Pak.Filelen] in *. f_equal.
  - rewrite <- Hn. apply take_app_len.
  - replace 56 with (len name + 0) by lia.
    rewrite drop_app_plus, drop_0 by lia. now apply Uint32_PutUint32.
  - replace 60 with (len name + 4) by lia.
    rewrite drop_app_plus by lia.
    change (drop 4 (PutUint32 pos ++ PutUint32 flen)) with (PutUint32 flen).
    rewrite <- (app_nil_r (PutUint32 flen)). now apply Uint32_PutUint32.
Qed.

Lemma decode_encodeHeader h :
  0 <= Pak.Ident h < 2 ^ 32 -> 0 <= Pak.Dirofs h < 2 ^ 32 ->
  0 <= Pak.Dirlen h < 2 ^ 32 ->
  Pak.decodeHeader (Pak.encodeHeader h) = h.
Proof.
  intros Hi Ho Hl. unfold Pak.decodeHeader, Pak.encodeHeader.
  destruct h as [i o l].
  cbn [Pak.Ident Pak.Dirofs Pak.Dirlen] in *.
  change (drop 4 (PutUint32 i ++ PutUint32 o ++ PutUint32 l))
    with (PutUint32 o ++ PutUint32 l).
  change (drop 8 (PutUint32 i ++ PutUint32 o ++ PutUint32 l))
    with (PutUint32 l).
  rewrite !Uint32_PutUint32 by assumption.
  rewrite <- (app_nil_r (PutUint32 l)).
  rewrite Uint32_PutUint32 by assumption. reflexivity.
Qed.

(** Reading at the end of a prefix returns what follows it. *)
Lemma readFull_at pre x post n :
  0 < n -> len x = n -> readFull (pre ++ x ++ post) (len pre) n = Ok x.
Proof.
  intros Hn Hx. unfold readFull.
  replace (n <=? 0) with false by (symmetry; apply Z.leb_gt; lia).
  rewrite drop_app_len.
  destruct (x ++ post) as [|c t] eqn:E.
  - apply (f_equal len) in E. rewrite len_app in E.
    unfold len in E at 3. simpl in E. pose proof (len_nonneg post). lia.
  - rewrite <- E.
    replace (len (x ++ post) <? n) with false.
    + rewrite <- Hx. now rewrite take_app_len.
    + symmetry. apply Z.ltb_ge. rewrite len_app.
      pose proof (len_nonneg post). lia.
Qed.

Lemma setLastLen_snoc e off : forall l,
  Pak.setLastLen (l ++ [e]) off
  = l ++ [Pak.mkEntry (Pak.Name e) (Pak.Filepos e)
            (wrap32 (wrap32 off - Pak.Filepos e))].
Proof.
  induction l as [|a l IH]; [reflexivity|].
  destruct l as [|b l]; [reflexivity|].
  change (Pak.setLastLen ((a :: b :: l) ++ [e]) off)
    with (a :: Pak.setLastLen ((b :: l) ++ [e]) off).
  rewrite IH. reflexivity.
Qed.

Lemma len_setLastLen off : forall l, len (Pak.setLastLen l off) = len l.
Proof.
  induction l as [|a [|b l] IH]; try reflexivity.
  change (Pak.setLastLen (a :: b :: l) off)
    with (a :: Pak.setLastLen (b :: l) off).
  unfold len in *. simpl length in *. lia.
Qed.

Lemma wsWrite_end ws p :
  Pak.wsPos ws = len (Pak.wsBuf ws) ->
  Pak.wsWrite ws p = Pak.mkWS (Pak.wsBuf ws ++ p) (Pak.wsPos ws + len p).
Proof.
  intros H. unfold Pak.wsWrite. rewrite H.
  rewrite take_all by lia. rewrite Z.sub_diag. simpl repeat.
  rewrite drop_all by (pose proof (len_nonneg p); lia).
  now rewrite app_nil_r.
Qed.

Lemma wrap32_small v : 0 <= v < 2 ^ 32 -> wrap32 v = v.
Proof. intros H. unfold wrap32. now apply Z.mod_small. Qed.

(** [Create] followed by [Write] on a ready writer with room left. *)
Lemma Create_Write name content pak :
  writerReady pak ->
  0 <= Pak.offset pak ->
  Pak.offset pak + len content <= 2 ^ 31 - 1 ->
  len name <= 56 ->
  len (Pak.files pak) < 4096 ->
  exists pak1,
    Pak.Create name pak = (pak1, None)
    /\ Pak.Write content pak1
       = (Pak.mkWriter
            (Pak.mkWS (Pak.wsBuf (Pak.w pak) ++ content)
                      (Pak.offset pak + len content))
            (Pak.setLastLen (Pak.files pak) (Pak.offset pak)
             ++ [Pak.mkEntry (Pak.copyName name) (Pak.offset pak) 0])
            (Pak.offset pak + len content) false, None).
Proof.
  intros (Hc & Hpos & Hlen) H0 Hroom Hname Hfiles.
  unfold Pak.Create. rewrite Hc. unfold Pak.finishEntry.
  cbn [Pak.files Pak.offset Pak.w Pak.closed].
  unfold Pak.MaxFileName, Pak.MaxFiles.
  replace (len name >? 56) with false
    by (symmetry; rewrite Z.gtb_ltb; apply Z.ltb_ge; lia).
  rewrite len_setLastLen.
  replace (len (Pak.files pak) >=? 4096) with false
    by (symmetry; rewrite Z.geb_leb; apply Z.leb_gt; lia).
  eexists. split; [reflexivity|].
  unfold Pak.Write. cbn [Pak.files Pak.offset Pak.w Pak.closed].
  rewrite Hc, len_app, len_setLastLen.
  replace (len (Pak.files pak) + len [Pak.mkEntry (Pak.copyName name)
             (wrap32 (Pak.offset pak)) 0] =? 0) with false.
  2:{ symmetry. apply Z.eqb_neq. pose proof (len_nonneg (Pak.files pak)).
      unfold len at 2. simpl length. lia. }
  unfold Pak.MaxOffset.
  replace (Pak.offset pak >? 2 ^ 31 - 1 - len content) with false
    by (symmetry; rewrite Z.gtb_ltb; apply Z.ltb_ge; lia).
  rewrite wsWrite_end by (rewrite Hpos, Hlen; reflexivity).
  rewrite Hpos. pose proof (len_nonneg content).
  rewrite wrap32_small by lia. reflexivity.
Qed.

Lemma totalLen_cons n c t : totalLen ((n, c) :: t) = len c + totalLen t.
Proof. unfold totalLen. simpl. apply len_app. Qed.

Lemma totalLen_nonneg pairs : 0 <= totalLen pairs.
Proof. apply len_nonneg. Qed.

Lemma writeEntries_spec : forall pairs pak,
  writerReady pak ->
  0 <= Pak.offset pak ->
  Pak.offset pak + totalLen pairs <= 2 ^ 31 - 1 ->
  len (Pak.files pak) + len pairs <= 4096 ->
  Forall nameOK pairs ->
  exists pak',
    Pak.writeEntries pairs pak = Ok pak'
    /\ writerReady pak'
    /\ Pak.wsBuf (Pak.w pak') = Pak.wsBuf (Pak.w pak) ++ concat (map snd pairs)
    /\ Pak.offset pak' = Pak.offset pak + totalLen pairs
    /\ Pak.setLastLen (Pak.files pak') (Pak.offset pak')
       = Pak.setLastLen (Pak.files pak) (Pak.offset pak)
         ++ layout (Pak.offset pak) pairs.
Proof.
  induction pairs as [|[name content] t IH];
    intros pak Hready H0 Hroom Hcount Hnames.
  - exists pak. simpl. unfold totalLen. simpl concat.
    rewrite !app_nil_r. change (len []) with 0. rewrite Z.add_0_r.
    repeat split; try reflexivity; apply Hready.
  - rewrite totalLen_cons in Hroom.
    pose proof (totalLen_nonneg t) as Ht.
    pose proof (len_nonneg content) as Hc.
    inversion Hnames as [|? ? [Hn Hz] Hrest]; subst.
    assert (Hlt : len (Pak.files pak) < 4096).
    { unfold len in *. simpl length in Hcount. lia. }
    destruct (Create_Write name content pak Hready H0 ltac:(lia) Hn Hlt)
      as (pak1 & HC & HW).
    set (pak2 := Pak.mkWriter _ _ _ _) in HW.
    destruct (IH pak2) as (pak' & Hw & Hr' & Hbuf & Hoff & Hfiles).
    + unfold writerReady, pak2. cbn. repeat split.
      rewrite len_app. destruct Hready as (_ & _ & Hl). lia.
    + unfold pak2. cbn. lia.
    + unfold pak2. cbn. lia.
    + unfold pak2. cbn [Pak.files]. rewrite len_app, len_setLastLen.
      unfold len in *. simpl length in *. lia.
    + exact Hrest.
    + exists pak'. cbn [Pak.writeEntries]. rewrite HC, HW, Hw.
      split; [reflexivity|]. split; [exact Hr'|].
      unfold pak2 in Hbuf, Hoff, Hfiles.
      cbn [Pak.w Pak.wsBuf Pak.offset Pak.files] in Hbuf, Hoff, Hfiles.
      split; [|split].
      * rewrite Hbuf. simpl concat. now rewrite <- app_assoc.
      * rewrite Hoff, totalLen_cons. lia.
      * rewrite Hfiles, setLastLen_snoc.
        cbn [Pak.Name Pak.Filepos layout].
        rewrite (wrap32_small (Pak.offset pak + len content)) by lia.
        replace (Pak.offset pak + len content - Pak.offset pak)
          with (len content) by lia.
        rewrite wrap32_small by lia.
        rewrite <- app_assoc. reflexivity.
Qed.

Lemma len_concat_encodeEntry : forall es,
  Forall entryOK es -> len (concat (map Pak.encodeEntry es)) = 64 * len es.
Proof.
  induction 1 as [|e es He Hes IH].
  - reflexivity.
  - simpl concat. rewrite len_app, IH, len_encodeEntry by apply He.
    unfold len. simpl length. lia.
Qed.

(** Reading back an encoded directory that ends the archive. *)
Lemma readFiles_encoded : forall es pre,
  Forall entryOK es ->
  Pak.readFiles (pre ++ concat (map Pak.encodeEntry es)) (len pre)
    (length es) = Ok (map fileOf es).
Proof.
  induction es as [|e es IH]; intros pre Hok; [reflexivity|].
  inversion Hok as [|? ? He Hes]; subst.
  destruct He as (Hn & Hp & Hl & Hs).
  simpl length. rewrite readFiles_S. simpl concat.
  unfold Pak.readEntry.
  rewrite readFull_at by (try reflexivity; now apply len_encodeEntry).
  rewrite !bind_Ok, decode_encodeEntry by lia.
  destruct (checkEntry_spec e) as [_ Hgood]; try lia.
  rewrite (Hgood Hs), bind_Ok.
  replace (len pre + Pak.entrySize) with (len (pre ++ Pak.encodeEntry e))
    by (rewrite len_app, len_encodeEntry by assumption; reflexivity).
  rewrite app_assoc, IH by assumption. reflexivity.
Qed.

Lemma layout_ok : forall pairs pos,
  Forall nameOK pairs -> 0 <= pos -> pos + totalLen pairs <= 2 ^ 31 - 1 ->
  Forall entryOK (layout pos pairs)
  /\ map Pak.fName (map fileOf (layout pos pairs)) = map fst pairs
  /\ len (layout pos pairs) = len pairs.
Proof.
  induction pairs as [|[name content] t IH]; intros pos Hn H0 Hroom.
  - repeat split. constructor.
  - inversion Hn as [|? ? [Hl Hz] Hrest]; subst. simpl in Hl, Hz.
    rewrite totalLen_cons in Hroom.
    pose proof (totalLen_nonneg t). pose proof (len_nonneg content).
    destruct (IH (pos + len content) Hrest) as (Hok & Hnames & Hlen);
      try lia.
    cbn [layout map]. split; [|split].
    + constructor; [|exact Hok]. unfold entryOK.
      cbn [Pak.Name Pak.Filepos Pak.Filelen].
      rewrite len_copyName by assumption. lia.
    + rewrite Hnames. unfold fileOf at 1. cbn [Pak.fName Pak.Name fst].
      now rewrite untilZero_copyName.
    + unfold len in *. simpl length. lia.
Qed.

Lemma open_layout : forall pairs pre post,
  map (Pak.Open (pre ++ concat (map snd pairs) ++ post))
      (map fileOf (layout (len pre) pairs))
  = map snd pairs.
Proof.
  induction pairs as [|[name content] t IH]; intros pre post; [reflexivity|].
  cbn [layout map snd]. f_equal.
  - unfold Pak.Open, fileOf. cbn [Pak.fFilepos Pak.fFilelen Pak.Filepos
                                    Pak.Filelen].
    rewrite drop_app_len. simpl concat. rewrite <- app_assoc.
    apply take_app_len.
  - replace (len pre + len content) with (len (pre ++ content))
      by apply len_app.
    specialize (IH (pre ++ content) post).
    simpl concat. rewrite <- !app_assoc in *. exact IH.
Qed.

Lemma wsWrite_start a rest p :
  len a = len p ->
  Pak.wsWrite (Pak.mkWS (a ++ rest) 0) p = Pak.mkWS (p ++ rest) (len p).
Proof.
  intros H. unfold Pak.wsWrite. cbn [Pak.wsBuf Pak.wsPos].
  rewrite take_firstn. simpl firstn.
  replace (Z.to_nat (0 - len (a ++ rest))) with O
    by (pose proof (len_nonneg (a ++ rest)); lia).
  simpl repeat. rewrite Z.add_0_l, <- H, drop_app_len. reflexivity.
Qed.

(** C7, as the code has it: a sequence of at most 4096 (name, content)
    pairs, each name of at most 56 bytes and WITHOUT a zero byte, whose
    archive (12-byte header, contents, 64 bytes of directory per entry)
    is at most 2^31-1 bytes long, written by [Create] then [Write] for
    each pair and [Close], is read back by the reader with the same
    number of entries, the same names and the same contents in the same
    order; contents may be empty and may hold zero bytes. *)
Theorem C7_write_read_round_trip :
  forall pairs,
    Forall nameOK pairs ->
    len pairs <= 4096 ->
    12 + totalLen pairs + 64 * len pairs <= 2 ^ 31 - 1 ->
    exists b fs,
      Pak.writeArchive pairs = Ok b
      /\ Pak.NewReader b = Ok fs
      /\ length fs = length pairs
      /\ map Pak.fName fs = map fst pairs
      /\ map (Pak.Open b) fs = map snd pairs.
Proof.
  intros pairs Hnames Hcount Hsize.
  pose proof (totalLen_nonneg pairs) as Ht.
  pose proof (len_nonneg pairs) as Hp.
  set (pak0 := Pak.NewWriter (Pak.mkWS [] 0)).
  assert (Hbuf0 : Pak.wsBuf (Pak.w pak0)
                  = Pak.encodeHeader (Pak.mkHeader 0 0 0)) by reflexivity.
  destruct (writeEntries_spec pairs pak0)
    as (pak & Hw & (Hcl & Hpos & Hlen) & Hbuf & Hoff & Hfiles);
    try assumption.
  { repeat split. }
  { change (Pak.offset pak0) with 12. lia. }
  { change (Pak.offset pak0) with 12. lia. }
  change (Pak.offset pak0) with 12 in Hoff, Hfiles.
  change (Pak.setLastLen (Pak.files pak0) 12) with (@nil Pak.pakEntry)
    in Hfiles.
  rewrite app_nil_l in Hfiles.
  destruct (layout_ok pairs 12 Hnames) as (Hok & Hfn & Hll); try lia.
  set (dir := layout 12 pairs) in *.
  set (contents := concat (map snd pairs)) in *.
  set (H := Pak.mkHeader Pak.pakIdent (12 + totalLen pairs)
              (64 * len pairs)).
  set (b := Pak.encodeHeader H ++ contents
            ++ concat (map Pak.encodeEntry dir)).
  assert (Hwrite : Pak.writeArchive pairs = Ok b).
  { unfold Pak.writeArchive. fold pak0. rewrite Hw, bind_Ok.
    unfold Pak.Close. rewrite Hcl. unfold Pak.finish, Pak.finishEntry.
    cbn [Pak.files Pak.offset Pak.w Pak.closed].
    rewrite Hfiles, Hll, Hoff.
    unfold Pak.entrySize, Pak.MaxOffset.
    replace (12 + totalLen pairs >? 2 ^ 31 - 1 - 64 * len pairs) with false
      by (symmetry; rewrite Z.gtb_ltb; apply Z.ltb_ge; lia).
    cbn [Pak.w Pak.wsBuf].
    rewrite (wsWrite_end (Pak.w pak)) by (rewrite Hlen; exact Hpos).
    unfold Pak.wsSeekStart. cbn [Pak.wsBuf Pak.wsPos].
    rewrite !wrap32_small by lia. fold H.
    rewrite Hbuf, Hbuf0, <- app_assoc.
    rewrite wsWrite_start by reflexivity. reflexivity. }
  assert (Hhdr : Pak.readHeader b 0 = Ok H).
  { unfold Pak.readHeader, b.
    change 0 with (len (@nil ascii)) at 1.
    change (Pak.encodeHeader H ++ contents ++ concat (map Pak.encodeEntry dir))
      with ([] ++ Pak.encodeHeader H
               ++ contents ++ concat (map Pak.encodeEntry dir)).
    rewrite readFull_at by reflexivity.
    rewrite bind_Ok, decode_encodeHeader; try reflexivity;
      unfold H; cbn [Pak.Ident Pak.Dirofs Pak.Dirlen];
      try lia.
    unfold Pak.pakIdent. lia. }
  assert (Hread : Pak.NewReader b = Ok (map fileOf dir)).
  { unfold Pak.NewReader, Pak.init. rewrite Hhdr, bind_Ok.
    unfold H. cbn [Pak.Ident Pak.Dirofs Pak.Dirlen].
    rewrite Z.eqb_refl. cbn [negb].
    unfold Pak.entrySize, Pak.MaxFiles, Pak.MaxOffset.
    rewrite (Z.mul_comm 64 (len pairs)), Z_mod_mult. cbn [Z.eqb negb].
    rewrite Z_div_mult by lia.
    replace (len pairs >? 4096) with false
      by (symmetry; rewrite Z.gtb_ltb; apply Z.ltb_ge; lia).
    rewrite wrap32_small by lia.
    replace (12 + totalLen pairs >? 2 ^ 31 - 1 - len pairs * 64) with false
      by (symmetry; rewrite Z.gtb_ltb; apply Z.ltb_ge; lia).
    replace (Z.to_nat (len pairs)) with (length dir)
      by (unfold len in *; lia).
    replace (12 + totalLen pairs)
      with (len (Pak.encodeHeader
                   (Pak.mkHeader Pak.pakIdent (12 + totalLen pairs)
                      (len pairs * 64)) ++ contents)).
    2:{ rewrite len_app. unfold totalLen. fold contents. reflexivity. }
    unfold b, H. rewrite (Z.mul_comm 64 (len pairs)), app_assoc.
    now apply readFiles_encoded. }
  exists b, (map fileOf dir). split; [exact Hwrite|].
  split; [exact Hread|]. split; [|split].
  - rewrite length_map. unfold len in Hll. lia.
  - exact Hfn.
  - unfold b, dir.
    change 12 with (len (Pak.encodeHeader H)).
    apply open_layout.
Qed.

(** A content that does not fit below the largest offset cannot be
    written. *)
Lemma writeArchive_too_big name content :
  len name <= 56 -> 12 + len content > 2 ^ 31 - 1 ->
  Pak.writeArchive [(name, content)] = Err errFileTooBig.
Proof.
  intros Hn Hc. unfold Pak.writeArchive, Pak.writeEntries, Pak.Create.
  cbn [Pak.closed Pak.NewWriter Pak.finishEntry Pak.files Pak.offset Pak.w
       Pak.setLastLen].
  unfold Pak.MaxFileName.
  replace (len name >? 56) with false
    by (symmetry; rewrite Z.gtb_ltb; apply Z.ltb_ge; lia).
  cbn [len length Z.of_nat Z.geb Z.compare Pos.compare Pos.compare_cont
       Pak.MaxFiles].
  unfold Pak.Write. cbn [Pak.closed Pak.files Pak.offset app].
  change (len [_] =? 0) with false. cbv iota.
  unfold Pak.MaxOffset, Pak.headerSize.
  replace (12 >? 2 ^ 31 - 1 - len content) with true
    by (symmetry; rewrite Z.gtb_ltb; apply Z.ltb_lt; lia).
  reflexivity.
Qed.

(** C7 as stated fails for a name that holds a zero byte: the archive is
    written and read without error, and the name read back stops at the
    zero byte. *)
Lemma C7_counterexample :
  exists b fs,
    Pak.writeArchive [(str "a" ++ zero :: str "b", str "data")] = Ok b
    /\ Pak.NewReader b = Ok fs
    /\ map Pak.fName fs = [str "a"]
    /\ map Pak.fName fs
       <> map fst [(str "a" ++ zero :: str "b", str "data")].
Proof.
  eexists. eexists. split; [vm_compute; reflexivity|].
  split; [vm_compute; reflexivity|].
  split; [reflexivity|]. vm_compute. discriminate.
Qed.

Lemma C7_write_read_round_trip_witness :
  exists b fs,
    Pak.writeArchive
      [(str "foo", str "test"); (str "bar", str "junk" ++ zero :: str "junk");
       (str "123qwe", [])] = Ok b
    /\ Pak.NewReader b = Ok fs
    /\ length fs = 3%nat
    /\ map Pak.fName fs = [str "foo"; str "bar"; str "123qwe"]
    /\ map (Pak.Open b) fs
       = [str "test"; str "junk" ++ zero :: str "junk"; []].
Proof.
  apply (C7_write_read_round_trip
           [(str "foo", str "test");
            (str "bar", str "junk" ++ zero :: str "junk");
            (str "123qwe", [])]).
  - repeat constructor; simpl; try (intros H; discriminate H);
      intuition discriminate.
  - vm_compute. discriminate.
  - vm_compute. discriminate.
Defined.

(** * Further properties of the code *)

(** ** The reader *)

Lemma len_take {A : Type} (l : list A) n : 0 <= n -> len (take n l) <= n.
Proof.
  intros H. rewrite take_firstn. unfold len. rewrite length_firstn. lia.
Qed.

Lemma untilZero_no_zero : forall b, ~ In zero (untilZero b).
Proof.
  induction b as [|c t IH]; simpl; [tauto|].
  destruct (Ascii.eqb c zero) eqn:E; [tauto|].
  intros [->|H]; [now rewrite Ascii.eqb_refl in E | now apply IH].
Qed.

Lemma len_untilZero : forall b, len (untilZero b) <= len b.
Proof.
  induction b as [|c t IH]; simpl; [lia|].
  destruct (Ascii.eqb c zero); unfold len in *; simpl length; lia.
Qed.

Lemma readEntry_ok_inv r pos entry :
  0 <= pos -> Pak.readEntry r pos = Ok entry ->
  pos + 64 <= len r
  /\ len (Pak.Name entry) <= 56
  /\ 0 <= Pak.Filepos entry < 2 ^ 32 /\ 0 <= Pak.Filelen entry < 2 ^ 32.
Proof.
  intros Hpos H. destruct (readEntry_range _ _ _ H) as [Hp Hl].
  unfold Pak.readEntry in H.
  destruct (readFull r pos Pak.entrySize) as [b|] eqn:E; [|discriminate].
  rewrite bind_Ok in H. inversion H; subst entry.
  apply readFull_ok_len in E; [|reflexivity].
  rewrite len_drop in E. unfold Pak.entrySize in E.
  split; [lia|]. split; [|split; assumption].
  unfold Pak.decodeEntry, Pak.Name. apply len_take. lia.
Qed.

Lemma checkEntry_ok_inv entry f :
  0 <= Pak.Filepos entry < 2 ^ 32 -> 0 <= Pak.Filelen entry < 2 ^ 32 ->
  len (Pak.Name entry) <= 56 ->
  Pak.checkEntry entry = Ok f -> fileOK f.
Proof.
  intros Hp Hl Hn H.
  destruct (checkEntry_spec entry Hp Hl) as [Hbad Hgood].
  destruct (Z_le_gt_dec (Pak.Filepos entry + Pak.Filelen entry) (2 ^ 31 - 1))
    as [Hle|Hgt].
  - rewrite (Hgood Hle) in H. inversion H; subst f.
    unfold fileOK. cbn [Pak.fFilepos Pak.fFilelen Pak.fName].
    split; [lia|]. split; [lia|]. split; [exact Hle|].
    split; [|apply untilZero_no_zero].
    pose proof (len_untilZero (Pak.Name entry)). lia.
  - destruct (Hbad Hgt) as (e & He & _). rewrite He in H. discriminate H.
Qed.

Lemma readFiles_ok_inv r : forall n pos fs,
  0 <= pos -> Pak.readFiles r pos n = Ok fs ->
  length fs = n /\ Forall fileOK fs
  /\ (n <> O -> pos + 64 * Z.of_nat n <= len r).
Proof.
  induction n as [|n IH]; intros pos fs Hpos H.
  - inversion H; subst. split; [reflexivity|]. split; [constructor|].
    intros Hn. congruence.
  - rewrite readFiles_S in H.
    destruct (Pak.readEntry r pos) as [entry|] eqn:Er; [|discriminate H].
    rewrite bind_Ok in H.
    destruct (readEntry_ok_inv r pos entry Hpos Er) as (Hend & Hn & Hp & Hl).
    destruct (Pak.checkEntry entry) as [f|] eqn:Ec; [|discriminate H].
    rewrite bind_Ok in H.
    destruct (Pak.readFiles r (pos + Pak.entrySize) n) as [fs'|] eqn:Ef;
      [|discriminate H].
    rewrite bind_Ok in H. inversion H; subst fs.
    destruct (IH (pos + Pak.entrySize) fs') as (Hlen & Hok & Hin);
      [unfold Pak.entrySize; lia | exact Ef |].
    split; [simpl; now rewrite Hlen|].
    split; [constructor; [eapply checkEntry_ok_inv; eassumption | exact Hok]|].
    intros _. unfold Pak.entrySize in Hin.
    destruct n as [|n']; [lia|].
    specialize (Hin ltac:(discriminate)). lia.
Qed.

(** X1: an archive that [Reader.init] accepts is well formed as a whole:
    its ident is "PACK", its directory is a whole number of at most 4096
    entries and one [File] is returned per entry, the directory lies
    inside the bytes read and below the largest offset, and every file
    lies below the largest offset, with a name of at most 56 bytes
    without a zero byte. *)
Theorem X1_init_accepts_only_well_formed :
  forall r fs,
    Pak.init r = Ok fs ->
    exists header,
      Pak.readHeader r 0 = Ok header
      /\ Pak.Ident header = Pak.pakIdent
      /\ Pak.Dirlen header = 64 * len fs
      /\ len fs <= 4096
      /\ Pak.Dirofs header + Pak.Dirlen header <= 2 ^ 31 - 1
      /\ (fs <> [] -> Pak.Dirofs header + Pak.Dirlen header <= len r)
      /\ 12 <= len r
      /\ Forall fileOK fs.
Proof.
  intros r fs H. unfold Pak.init in H.
  destruct (Pak.readHeader r 0) as [h|] eqn:Eh; [|discriminate H].
  rewrite bind_Ok in H. exists h. split; [reflexivity|].
  assert (Hr : 0 <= Pak.Dirofs h < 2 ^ 32 /\ 0 <= Pak.Dirlen h < 2 ^ 32
               /\ 12 <= len r).
  { unfold Pak.readHeader in Eh.
    destruct (readFull r 0 Pak.headerSize) as [b|] eqn:E; [|discriminate].
    rewrite bind_Ok in Eh. inversion Eh; subst.
    apply readFull_ok_len in E; [|reflexivity].
    rewrite len_drop in E. unfold Pak.headerSize in E.
    unfold Pak.decodeHeader, Pak.Dirofs, Pak.Dirlen.
    split; [apply Uint32_range|]. split; [apply Uint32_range|]. lia. }
  destruct Hr as (Hofs & Hlen & H12).
  unfold Pak.entrySize, Pak.MaxFiles, Pak.MaxOffset, wrap32 in H.
  destruct (Pak.Ident h =? Pak.pakIdent) eqn:Ei; cbn [negb] in H;
    [|discriminate H].
  apply Z.eqb_eq in Ei.
  destruct (Pak.Dirlen h mod 64 =? 0) eqn:Em; cbn [negb] in H;
    [|discriminate H].
  apply Z.eqb_eq in Em.
  destruct (Pak.Dirlen h / 64 >? 4096) eqn:Ec; [discriminate H|].
  rewrite Z.gtb_ltb in Ec. apply Z.ltb_ge in Ec.
  assert (Hd : Pak.Dirlen h = 64 * (Pak.Dirlen h / 64)).
  { pose proof (Z.div_mod (Pak.Dirlen h) 64). lia. }
  rewrite (Z.mod_small (2 ^ 31 - 1 - Pak.Dirlen h)) in H by lia.
  destruct (Pak.Dirofs h >? 2 ^ 31 - 1 - Pak.Dirlen h) eqn:Eo;
    [discriminate H|].
  rewrite Z.gtb_ltb in Eo. apply Z.ltb_ge in Eo.
  assert (Hq : 0 <= Pak.Dirlen h / 64) by (apply Z.div_pos; lia).
  destruct (readFiles_ok_inv r _ _ fs (proj1 Hofs) H) as (Hn & Hok & Hin).
  assert (Hfs : len fs = Pak.Dirlen h / 64).
  { unfold len. rewrite Hn. apply Z2Nat.id. exact Hq. }
  split; [exact Ei|]. split; [lia|]. split; [lia|]. split; [lia|].
  split; [|split; [exact H12 | exact Hok]].
  intros Hne.
  assert (Hnz : Z.to_nat (Pak.Dirlen h / 64) <> O).
  { rewrite <- Hn. destruct fs; [congruence|discriminate]. }
  specialize (Hin Hnz). rewrite Z2Nat.id in Hin by exact Hq. lia.
Qed.

Lemma X1_init_accepts_only_well_formed_witness :
  exists header,
    Pak.readHeader pakOneFile 0 = Ok header
    /\ Pak.Dirlen header = 64 * len [Pak.mkFile (str "foo") 12 4]
    /\ Forall fileOK [Pak.mkFile (str "foo") 12 4].
Proof.
  destruct (X1_init_accepts_only_well_formed pakOneFile
              [Pak.mkFile (str "foo") 12 4])
    as (h & Hh & _ & Hd & _ & _ & _ & _ & Hok).
  - vm_compute. reflexivity.
  - exists h. split; [assumption|]. split; assumption.
Defined.

Lemma readEntry_err_inv r pos e :
  0 <= pos -> Pak.readEntry r pos = Err e -> len r < pos + 64.
Proof.
  intros Hpos H. unfold Pak.readEntry in H.
  destruct (readFull r pos Pak.entrySize) as [b|e0] eqn:E;
    [rewrite bind_Ok in H; discriminate H|].
  unfold readFull, Pak.entrySize in E.
  change (64 <=? 0) with false in E. cbv iota in E.
  pose proof (len_drop r pos) as Hl.
  destruct (drop pos r) as [|c t] eqn:Ed.
  - change (len (@nil ascii)) with 0 in Hl. lia.
  - destruct (len (c :: t) <? 64) eqn:El; [|discriminate E].
    apply Z.ltb_lt in El. lia.
Qed.

Lemma readFiles_io_error r : forall n pos e,
  0 <= pos -> Pak.readFiles r pos n = Err e -> isFormatError e = false ->
  len r < pos + 64 * Z.of_nat n.
Proof.
  induction n as [|n IH]; intros pos e Hpos H Hf; [discriminate H|].
  rewrite readFiles_S in H.
  destruct (Pak.readEntry r pos) as [entry|e0] eqn:Er.
  2:{ apply readEntry_err_inv in Er; [lia|exact Hpos]. }
  rewrite bind_Ok in H.
  destruct (readEntry_ok_inv r pos entry Hpos Er) as (_ & _ & Hp & Hl).
  destruct (Pak.checkEntry entry) as [f|e1] eqn:Ec.
  2:{ rewrite bind_Err in H. inversion H; subst e1.
      destruct (checkEntry_spec entry Hp Hl) as [Hbad Hgood].
      destruct (Z_le_gt_dec (Pak.Filepos entry + Pak.Filelen entry)
                  (2 ^ 31 - 1)) as [Hle|Hgt].
      - rewrite (Hgood Hle) in Ec. discriminate Ec.
      - destruct (Hbad Hgt) as (e2 & He2 & Hf2).
        rewrite He2 in Ec. inversion Ec; subst. congruence. }
  rewrite bind_Ok in H.
  destruct (Pak.readFiles r (pos + Pak.entrySize) n) as [fs|e2] eqn:Ef;
    [rewrite bind_Ok in H; discriminate H|].
  rewrite bind_Err in H. inversion H; subst e2.
  specialize (IH (pos + Pak.entrySize) e ltac:(unfold Pak.entrySize; lia)
                Ef Hf).
  unfold Pak.entrySize in IH. lia.
Qed.

(** X2: [Reader.init] reports an I/O error, not a format error, for bytes
    that end too early: io.EOF for no bytes at all, io.ErrUnexpectedEOF
    for fewer than the 12 bytes of the header (whatever they are), and
    any other error that is not a format error means that the directory
    announced by the header runs beyond the end of the bytes. *)
Theorem X2_init_io_errors_mean_truncation :
  Pak.init [] = Err EOF
  /\ (forall r, r <> [] -> len r < 12 -> Pak.init r = Err ErrUnexpectedEOF)
  /\ (forall r e,
        12 <= len r -> Pak.init r = Err e -> isFormatError e = false ->
        exists header,
          Pak.readHeader r 0 = Ok header
          /\ len r < Pak.Dirofs header + Pak.Dirlen header).
Proof.
  split; [reflexivity|]. split.
  - intros r Hne Hl. unfold Pak.init, Pak.readHeader, readFull.
    change (Pak.headerSize <=? 0) with false. cbv iota.
    rewrite drop_0. destruct r as [|c t]; [congruence|].
    unfold Pak.headerSize.
    replace (len (c :: t) <? 12) with true
      by (symmetry; apply Z.ltb_lt; exact Hl).
    reflexivity.
  - intros r e H12 H Hf. unfold Pak.init in H.
    destruct (Pak.readHeader r 0) as [h|e0] eqn:Eh.
    2:{ exfalso. unfold Pak.readHeader in Eh.
        destruct (readFull_ok r 0 Pak.headerSize) as [b Hb];
          [reflexivity | rewrite drop_0; exact H12 |].
        rewrite Hb, bind_Ok in Eh. discriminate Eh. }
    rewrite bind_Ok in H. exists h. split; [reflexivity|].
    assert (Hr : 0 <= Pak.Dirofs h < 2 ^ 32 /\ 0 <= Pak.Dirlen h < 2 ^ 32).
    { unfold Pak.readHeader in Eh.
      destruct (readFull r 0 Pak.headerSize) as [b|]; [|discriminate].
      rewrite bind_Ok in Eh. inversion Eh; subst.
      unfold Pak.decodeHeader, Pak.Dirofs, Pak.Dirlen.
      split; apply Uint32_range. }
    destruct Hr as (Hofs & Hlen).
    unfold Pak.entrySize, Pak.MaxFiles, Pak.MaxOffset, wrap32 in H.
    destruct (Pak.Ident h =? Pak.pakIdent); cbn [negb] in H;
      [|inversion H; subst; discriminate Hf].
    destruct (Pak.Dirlen h mod 64 =? 0) eqn:Em; cbn [negb] in H;
      [|inversion H; subst; discriminate Hf].
    apply Z.eqb_eq in Em.
    destruct (Pak.Dirlen h / 64 >? 4096);
      [inversion H; subst; discriminate Hf|].
    destruct (Pak.Dirofs h >? (2 ^ 31 - 1 - Pak.Dirlen h) mod 2 ^ 32);
      [inversion H; subst; discriminate Hf|].
    apply readFiles_io_error in H; [|lia|exact Hf].
    rewrite Z2Nat.id in H by (apply Z.div_pos; lia).
    pose proof (Z.div_mod (Pak.Dirlen h) 64). lia.
Qed.

Lemma X2_init_io_errors_mean_truncation_witness :
  Pak.init (str "PAC") = Err ErrUnexpectedEOF.
Proof.
  apply (proj1 (proj2 X2_init_io_errors_mean_truncation)).
  - discriminate.
  - vm_compute. reflexivity.
Defined.

Lemma len_take_min {A : Type} (l : list A) n :
  len (take n l) = Z.max 0 (Z.min n (len l)).
Proof. rewrite take_firstn. unfold len. rewrite length_firstn. lia. Qed.

(** X3: the view [File.Open] returns is bounded: it never holds more than
    [Filelen] bytes nor bytes beyond the end of the archive, and when the
    file lies inside the archive it is exactly the [Filelen] bytes that
    start at [Filepos]. *)
Theorem X3_Open_is_a_bounded_view :
  forall r f,
    0 <= Pak.fFilepos f -> 0 <= Pak.fFilelen f ->
    len (Pak.Open r f)
    = Z.max 0 (Z.min (Pak.fFilelen f) (len r - Pak.fFilepos f))
    /\ (Pak.fFilepos f + Pak.fFilelen f <= len r ->
        exists pre post,
          r = pre ++ Pak.Open r f ++ post
          /\ len pre = Pak.fFilepos f
          /\ len (Pak.Open r f) = Pak.fFilelen f).
Proof.
  intros r f Hp Hl. unfold Pak.Open.
  rewrite len_take_min, len_drop. split; [lia|].
  intros Hin.
  exists (take (Pak.fFilepos f) r),
         (drop (Pak.fFilelen f) (drop (Pak.fFilepos f) r)).
  rewrite take_drop, take_drop, len_take_min.
  split; [reflexivity|]. split; lia.
Qed.

Lemma X3_Open_is_a_bounded_view_witness :
  len (Pak.Open pakOneFile (Pak.mkFile (str "foo") 12 4))
  = Z.max 0 (Z.min 4 (len pakOneFile - 12)).
Proof.
  apply (proj1 (X3_Open_is_a_bounded_view pakOneFile
                  (Pak.mkFile (str "foo") 12 4)
                  ltac:(vm_compute; discriminate)
                  ltac:(vm_compute; discriminate))).
Defined.

(** ** The writer *)

Lemma list_snoc_cases {A : Type} (l : list A) :
  l = [] \/ exists l' e, l = l' ++ [e].
Proof. induction l using rev_ind; [now left | right; eauto]. Qed.

Lemma setLastLen_idem off l :
  Pak.setLastLen (Pak.setLastLen l off) off = Pak.setLastLen l off.
Proof.
  destruct (list_snoc_cases l) as [->|(l' & e & ->)]; [reflexivity|].
  rewrite setLastLen_snoc, setLastLen_snoc. reflexivity.
Qed.

Lemma setLastLen_names off l :
  Forall (fun e => len (Pak.Name e) = 56) l ->
  Forall (fun e => len (Pak.Name e) = 56) (Pak.setLastLen l off).
Proof.
  destruct (list_snoc_cases l) as [->|(l' & e & ->)]; [auto|].
  rewrite setLastLen_snoc. intros H. apply Forall_app in H.
  destruct H as [H1 H2]. apply Forall_app. split; [exact H1|].
  inversion H2; subst. constructor; [assumption|constructor].
Qed.

Lemma contiguous_app b t : forall a s,
  contiguous s (a ++ b) t <-> exists m, contiguous s a m /\ contiguous m b t.
Proof.
  induction a as [|e a IH]; intros s; simpl.
  - split; [intros H; exists s; auto | intros (m & -> & H); exact H].
  - rewrite IH. split.
    + intros (Hp & Hl & m & Ha & Hb). exists m. auto.
    + intros (m & (Hp & Hl & Ha) & Hb). split; [exact Hp|].
      split; [exact Hl|]. exists m. auto.
Qed.

Lemma contiguous_le : forall es s t, contiguous s es t -> s <= t.
Proof.
  induction es as [|e es IH]; intros s t H; simpl in H; [lia|].
  destruct H as (_ & Hl & H). apply IH in H. lia.
Qed.

Lemma contiguous_entryOK : forall es s t,
  contiguous s es t -> 0 <= s -> t <= 2 ^ 31 - 1 ->
  Forall (fun e => len (Pak.Name e) = 56) es ->
  Forall entryOK es.
Proof.
  induction es as [|e es IH]; intros s t H Hs Ht Hn; [constructor|].
  destruct H as (Hp & Hl & H). inversion Hn; subst.
  pose proof (contiguous_le _ _ _ H).
  constructor.
  - unfold entryOK. split; [assumption|]. split; [lia|]. split; [lia|]. lia.
  - apply (IH (Pak.Filepos e + Pak.Filelen e) t); try assumption. lia.
Qed.

Lemma writerInv_NewWriter : writerInv (Pak.NewWriter (Pak.mkWS [] 0)).
Proof.
  unfold writerInv. cbn. repeat split; try reflexivity; try lia.
  - discriminate.
  - constructor.
Qed.

(** What [Create] does on an open writer, failing or not. *)
Lemma Create_spec name pak :
  writerInv pak ->
  let done := Pak.mkWriter (Pak.w pak)
                (Pak.setLastLen (Pak.files pak) (Pak.offset pak))
                (Pak.offset pak) false in
  Pak.Create name pak
  = if len name >? 56 then (done, Some errNameTooLong)
    else if len (Pak.files pak) >=? 4096 then (done, Some errTooManyFiles)
    else (Pak.mkWriter (Pak.w pak)
            (Pak.setLastLen (Pak.files pak) (Pak.offset pak)
             ++ [Pak.mkEntry (Pak.copyName name) (Pak.offset pak) 0])
            (Pak.offset pak) false, None).
Proof.
  intros (Hc & _ & _ & Hoff & _) done. subst done.
  unfold Pak.Create, Pak.finishEntry. rewrite Hc.
  cbn [Pak.files Pak.offset Pak.w Pak.closed].
  unfold Pak.MaxFileName, Pak.MaxFiles. rewrite len_setLastLen.
  rewrite wrap32_small by lia. reflexivity.
Qed.

(** What [Write] does on an open writer, failing or not. *)
Lemma Write_spec p pak :
  writerInv pak ->
  Pak.Write p pak
  = if len (Pak.files pak) =? 0 then (pak, Some errFileNotOpen)
    else if Pak.offset pak + len p >? 2 ^ 31 - 1
         then (pak, Some errFileTooBig)
    else (Pak.mkWriter
            (Pak.mkWS (Pak.wsBuf (Pak.w pak) ++ p) (Pak.offset pak + len p))
            (Pak.files pak) (Pak.offset pak + len p) false, None).
Proof.
  intros (Hc & Hpos & Hlen & Hoff & _). unfold Pak.Write. rewrite Hc.
  destruct (len (Pak.files pak) =? 0); [reflexivity|].
  unfold Pak.MaxOffset.
  replace (Pak.offset pak >? 2 ^ 31 - 1 - len p)
    with (Pak.offset pak + len p >? 2 ^ 31 - 1).
  2:{ rewrite !Z.gtb_ltb.
      destruct (Z.ltb_spec (2 ^ 31 - 1) (Pak.offset pak + len p));
        destruct (Z.ltb_spec (2 ^ 31 - 1 - len p) (Pak.offset pak));
        try reflexivity; lia. }
  destruct (Pak.offset pak + len p >? 2 ^ 31 - 1); [reflexivity|].
  rewrite wsWrite_end by (rewrite Hlen; exact Hpos).
  rewrite Hpos. reflexivity.
Qed.

Lemma writerInv_finishEntry pak :
  writerInv pak ->
  writerInv (Pak.mkWriter (Pak.w pak)
               (Pak.setLastLen (Pak.files pak) (Pak.offset pak))
               (Pak.offset pak) false).
Proof.
  intros (Hc & Hpos & Hlen & Hoff & Hn & Hnames & Hcont).
  unfold writerInv. cbn [Pak.files Pak.offset Pak.w Pak.closed].
  rewrite len_setLastLen, setLastLen_idem.
  split; [reflexivity|]. split; [exact Hpos|]. split; [exact Hlen|].
  split; [exact Hoff|]. split; [exact Hn|].
  split; [now apply setLastLen_names | exact Hcont].
Qed.

Lemma writerInv_Create name pak :
  writerInv pak -> writerInv (fst (Pak.Create name pak)).
Proof.
  intros Hinv. rewrite (Create_spec name pak Hinv).
  pose proof (writerInv_finishEntry pak Hinv) as Hfin.
  destruct (len name >? 56) eqn:En; [exact Hfin|].
  destruct (len (Pak.files pak) >=? 4096) eqn:Ef; [exact Hfin|].
  rewrite Z.gtb_ltb in En. apply Z.ltb_ge in En.
  rewrite Z.geb_leb in Ef. apply Z.leb_gt in Ef.
  destruct Hinv as (Hc & Hpos & Hlen & Hoff & Hn & Hnames & Hcont).
  unfold writerInv. cbn [fst Pak.files Pak.offset Pak.w Pak.closed].
  split; [reflexivity|]. split; [exact Hpos|]. split; [exact Hlen|].
  split; [exact Hoff|]. split; [|split].
  - rewrite len_app, len_setLastLen. change (len [_]) with 1. lia.
  - apply Forall_app. split; [now apply setLastLen_names|].
    constructor; [|constructor]. cbn [Pak.Name]. now apply len_copyName.
  - rewrite setLastLen_snoc. cbn [Pak.Name Pak.Filepos].
    rewrite (wrap32_small (Pak.offset pak)) by lia.
    rewrite Z.sub_diag. change (wrap32 0) with 0.
    apply contiguous_app. exists (Pak.offset pak). split; [exact Hcont|].
    cbn [contiguous Pak.Filepos Pak.Filelen]. lia.
Qed.

Lemma writerInv_Write p pak :
  writerInv pak -> writerInv (fst (Pak.Write p pak)).
Proof.
  intros Hinv. rewrite (Write_spec p pak Hinv).
  destruct (len (Pak.files pak) =? 0) eqn:E0; [exact Hinv|].
  destruct (Pak.offset pak + len p >? 2 ^ 31 - 1) eqn:Eb; [exact Hinv|].
  rewrite Z.gtb_ltb in Eb. apply Z.ltb_ge in Eb.
  pose proof (len_nonneg p) as Hp.
  destruct Hinv as (Hc & Hpos & Hlen & Hoff & Hn & Hnames & Hcont).
  unfold writerInv.
  cbn [fst Pak.files Pak.offset Pak.w Pak.closed Pak.wsBuf Pak.wsPos].
  split; [reflexivity|]. split; [reflexivity|].
  split; [rewrite len_app; lia|]. split; [lia|]. split; [exact Hn|].
  split; [exact Hnames|].
  destruct (list_snoc_cases (Pak.files pak)) as [Hnil|(l & e & Hl)].
  { rewrite Hnil in E0. discriminate E0. }
  rewrite Hl in *. rewrite setLastLen_snoc in *.
  apply contiguous_app in Hcont. destruct Hcont as (m & Hpre & Hlast).
  cbn [contiguous Pak.Filepos Pak.Filelen] in Hlast.
  destruct Hlast as (Hm & Hl0 & Hend).
  pose proof (contiguous_le _ _ _ Hpre) as H12.
  apply contiguous_app. exists m. split; [exact Hpre|].
  cbn [contiguous Pak.Filepos Pak.Filelen].
  rewrite (wrap32_small (Pak.offset pak + len p)) by lia.
  assert (Hm' : m <= Pak.offset pak).
  { unfold wrap32 in Hend, Hl0. lia. }
  rewrite wrap32_small by lia. lia.
Qed.

Lemma writerInv_runOps : forall ops pak,
  writerInv pak -> writerInv (runOps ops pak).
Proof.
  induction ops as [|op ops IH]; intros pak H; [exact H|].
  apply IH. destruct op; [now apply writerInv_Create|now apply writerInv_Write].
Qed.

(** X4: whatever [Create] and [Write] calls a program makes on a new
    writer, failed calls included, the writer stays consistent: the
    cursor is the number of bytes written and lies between 12 and
    2^31-1, there are at most 4096 entries, each with a 56-byte name
    field, and the entries tile the content region back to back from
    offset 12 to the cursor - no content byte lies outside an entry and
    no two entries overlap. *)
Theorem X4_writer_invariant :
  forall ops,
    let pak := runOps ops (Pak.NewWriter (Pak.mkWS [] 0)) in
    len (Pak.wsBuf (Pak.w pak)) = Pak.offset pak
    /\ 12 <= Pak.offset pak <= 2 ^ 31 - 1
    /\ len (Pak.files pak) <= 4096
    /\ Forall (fun e => len (Pak.Name e) = 56) (Pak.files pak)
    /\ contiguous 12 (Pak.setLastLen (Pak.files pak) (Pak.offset pak))
         (Pak.offset pak).
Proof.
  intros ops pak.
  destruct (writerInv_runOps ops _ writerInv_NewWriter)
    as (_ & _ & Hlen & Hoff & Hn & Hnames & Hcont).
  split; [exact Hlen|]. split; [exact Hoff|]. split; [exact Hn|].
  split; [exact Hnames | exact Hcont].
Qed.

(** What [Close] does on an open writer, failing or not. *)
Lemma Close_spec pak :
  writerInv pak ->
  let dir := Pak.setLastLen (Pak.files pak) (Pak.offset pak) in
  let header := Pak.mkHeader Pak.pakIdent (Pak.offset pak) (64 * len dir) in
  Pak.Close pak
  = if Pak.offset pak + 64 * len dir >? 2 ^ 31 - 1
    then (Pak.mkWriter (Pak.w pak) dir (Pak.offset pak) true,
          Some errBadDirOfs)
    else (Pak.mkWriter
            (Pak.mkWS (Pak.encodeHeader header
                       ++ drop 12 (Pak.wsBuf (Pak.w pak))
                       ++ concat (map Pak.encodeEntry dir)) 12)
            dir (Pak.offset pak) true, None).
Proof.
  intros (Hc & Hpos & Hlen & Hoff & Hn & Hnames & Hcont) dir header.
  unfold Pak.Close. rewrite Hc. unfold Pak.finish, Pak.finishEntry.
  cbn [Pak.files Pak.offset Pak.w Pak.closed]. fold dir.
  unfold Pak.entrySize, Pak.MaxOffset.
  replace (Pak.offset pak >? 2 ^ 31 - 1 - 64 * len dir)
    with (Pak.offset pak + 64 * len dir >? 2 ^ 31 - 1).
  2:{ rewrite !Z.gtb_ltb.
      destruct (Z.ltb_spec (2 ^ 31 - 1) (Pak.offset pak + 64 * len dir));
        destruct (Z.ltb_spec (2 ^ 31 - 1 - 64 * len dir) (Pak.offset pak));
        try reflexivity; lia. }
  destruct (Pak.offset pak + 64 * len dir >? 2 ^ 31 - 1) eqn:E;
    [reflexivity|].
  rewrite Z.gtb_ltb in E. apply Z.ltb_ge in E.
  assert (Hd : 0 <= len dir <= 4096).
  { unfold dir. rewrite len_setLastLen. pose proof (len_nonneg (Pak.files pak)).
    lia. }
  cbn [Pak.w Pak.files Pak.offset Pak.closed].
  rewrite (wsWrite_end (Pak.w pak)) by (rewrite Hlen; exact Hpos).
  unfold Pak.wsSeekStart. cbn [Pak.wsBuf Pak.wsPos].
  rewrite !wrap32_small by lia. fold header.
  rewrite <- (take_drop 12 (Pak.wsBuf (Pak.w pak))) at 1.
  rewrite <- app_assoc.
  rewrite wsWrite_start.
  - reflexivity.
  - rewrite len_take_min. change (len (Pak.encodeHeader header)) with 12. lia.
Qed.

Lemma readHeader_encoded h rest :
  0 <= Pak.Ident h < 2 ^ 32 -> 0 <= Pak.Dirofs h < 2 ^ 32 ->
  0 <= Pak.Dirlen h < 2 ^ 32 ->
  Pak.readHeader (Pak.encodeHeader h ++ rest) 0 = Ok h.
Proof.
  intros Hi Ho Hl. unfold Pak.readHeader.
  change 0 with (len (@nil ascii)) at 1.
  change (Pak.encodeHeader h ++ rest) with ([] ++ Pak.encodeHeader h ++ rest).
  rewrite readFull_at by reflexivity.
  rewrite bind_Ok, decode_encodeHeader by assumption. reflexivity.
Qed.

(** An archive laid out as header, contents and directory is read back
    as its directory. *)
Lemma init_encoded contents dir :
  Forall entryOK dir -> len dir <= 4096 ->
  12 + len contents + 64 * len dir <= 2 ^ 31 - 1 ->
  Pak.init (Pak.encodeHeader
              (Pak.mkHeader Pak.pakIdent (12 + len contents) (64 * len dir))
            ++ contents ++ concat (map Pak.encodeEntry dir))
  = Ok (map fileOf dir).
Proof.
  intros Hok Hn Hsize.
  pose proof (len_nonneg contents). pose proof (len_nonneg dir).
  unfold Pak.init. rewrite readHeader_encoded;
    cbn [Pak.Ident Pak.Dirofs Pak.Dirlen]; try lia;
    [|unfold Pak.pakIdent; lia].
  rewrite bind_Ok. cbn [Pak.Ident Pak.Dirofs Pak.Dirlen].
  rewrite Z.eqb_refl. cbn [negb].
  unfold Pak.entrySize, Pak.MaxFiles, Pak.MaxOffset.
  rewrite (Z.mul_comm 64 (len dir)), Z_mod_mult. cbn [Z.eqb negb].
  rewrite Z_div_mult by lia.
  replace (len dir >? 4096) with false
    by (symmetry; rewrite Z.gtb_ltb; apply Z.ltb_ge; lia).
  rewrite wrap32_small by lia.
  replace (12 + len contents >? 2 ^ 31 - 1 - len dir * 64) with false
    by (symmetry; rewrite Z.gtb_ltb; apply Z.ltb_ge; lia).
  replace (Z.to_nat (len dir)) with (length dir) by (unfold len; lia).
  pose proof (readFiles_encoded dir
                (Pak.encodeHeader
                   (Pak.mkHeader Pak.pakIdent (12 + len contents)
                      (len dir * 64)) ++ contents) Hok) as Hrf.
  rewrite len_app in Hrf.
  change (len (Pak.encodeHeader _)) with 12 in Hrf.
  rewrite app_assoc. exact Hrf.
Qed.

(** X5: [Close] succeeds exactly when the directory still fits below the
    largest offset; when it fails it reports errBadDirOfs and has written
    nothing; and every archive it completes - after whatever [Create]
    and [Write] calls, failed ones included - is accepted by
    [NewReader], which returns one file per entry created, in order,
    each with the position and length the writer recorded. *)
Theorem X5_closed_archive_is_readable :
  forall ops,
    let pak := runOps ops (Pak.NewWriter (Pak.mkWS [] 0)) in
    let dir := Pak.setLastLen (Pak.files pak) (Pak.offset pak) in
    (snd (Pak.Close pak) = None
     <-> Pak.offset pak + 64 * len (Pak.files pak) <= 2 ^ 31 - 1)
    /\ (snd (Pak.Close pak) <> None ->
        snd (Pak.Close pak) = Some errBadDirOfs
        /\ Pak.w (fst (Pak.Close pak)) = Pak.w pak)
    /\ (snd (Pak.Close pak) = None ->
        Pak.NewReader (Pak.wsBuf (Pak.w (fst (Pak.Close pak))))
        = Ok (map fileOf dir))
    /\ Pak.closed (fst (Pak.Close pak)) = true.
Proof.
  intros ops pak dir.
  pose proof (writerInv_runOps ops _ writerInv_NewWriter) as Hinv.
  fold pak in Hinv. rewrite (Close_spec pak Hinv). fold dir.
  destruct Hinv as (Hc & Hpos & Hlen & Hoff & Hn & Hnames & Hcont).
  assert (Hd : len dir = len (Pak.files pak))
    by (unfold dir; apply len_setLastLen).
  rewrite Hd.
  destruct (Pak.offset pak + 64 * len (Pak.files pak) >? 2 ^ 31 - 1) eqn:E;
    rewrite Z.gtb_ltb in E; cbn [fst snd Pak.w Pak.wsBuf Pak.closed].
  - apply Z.ltb_lt in E. split; [split; [discriminate | lia]|].
    split; [intros _; split; reflexivity|].
    split; [discriminate | reflexivity].
  - apply Z.ltb_ge in E. split; [split; [intros _; exact E | reflexivity]|].
    split; [intros H; congruence|]. split; [|reflexivity]. intros _.
    unfold Pak.NewReader. rewrite <- Hd.
    replace (Pak.offset pak)
      with (12 + len (drop 12 (Pak.wsBuf (Pak.w pak))))
      by (rewrite len_drop; lia).
    apply init_encoded.
    + apply (contiguous_entryOK dir 12 (Pak.offset pak)); try lia.
      * exact Hcont.
      * unfold dir. now apply setLastLen_names.
    + lia.
    + rewrite len_drop. lia.
Qed.

Lemma X5_closed_archive_is_readable_witness :
  Pak.NewReader
    (Pak.wsBuf (Pak.w (fst (Pak.Close
       (runOps [OpWrite (str "lost"); OpCreate (str "foo");
                OpWrite (str "te"); OpWrite (str "st");
                OpCreate (str "bar")]
          (Pak.NewWriter (Pak.mkWS [] 0)))))))
  = Ok [Pak.mkFile (str "foo") 12 4; Pak.mkFile (str "bar") 16 0].
Proof.
  refine (proj1 (proj2 (proj2 (X5_closed_archive_is_readable
            [OpWrite (str "lost"); OpCreate (str "foo");
             OpWrite (str "te"); OpWrite (str "st");
             OpCreate (str "bar")]))) _).
  vm_compute. reflexivity.
Defined.

Lemma writeChunks_spec : forall chunks pak,
  writerInv pak -> len (Pak.files pak) <> 0 ->
  (Pak.offset pak + len (concat chunks) <= 2 ^ 31 - 1 ->
     writeChunks chunks pak
     = (Pak.mkWriter
          (Pak.mkWS (Pak.wsBuf (Pak.w pak) ++ concat chunks)
                    (Pak.offset pak + len (concat chunks)))
          (Pak.files pak) (Pak.offset pak + len (concat chunks)) false,
        None))
  /\ (Pak.offset pak + len (concat chunks) > 2 ^ 31 - 1 ->
        snd (writeChunks chunks pak) = Some errFileTooBig).
Proof.
  induction chunks as [|c t IH]; intros pak Hinv Hf.
  - cbn [concat writeChunks]. change (len (@nil ascii)) with 0.
    destruct Hinv as (Hc & Hpos & Hlen & Hoff & _).
    split; [|lia]. intros _.
    destruct pak as [[buf pos] fs off cl].
    cbn [Pak.w Pak.wsBuf Pak.wsPos Pak.files Pak.offset Pak.closed] in *.
    subst. rewrite app_nil_r, Z.add_0_r. reflexivity.
  - cbn [concat writeChunks]. rewrite len_app.
    pose proof (len_nonneg c). pose proof (len_nonneg (concat t)).
    rewrite (Write_spec c pak Hinv).
    replace (len (Pak.files pak) =? 0) with false
      by (symmetry; now apply Z.eqb_neq).
    destruct (Pak.offset pak + len c >? 2 ^ 31 - 1) eqn:E;
      rewrite Z.gtb_ltb in E.
    + apply Z.ltb_lt in E. split; [lia|reflexivity].
    + apply Z.ltb_ge in E.
      pose proof (writerInv_Write c pak Hinv) as Hinv'.
      rewrite (Write_spec c pak Hinv) in Hinv'.
      replace (len (Pak.files pak) =? 0) with false in Hinv'
        by (symmetry; now apply Z.eqb_neq).
      replace (Pak.offset pak + len c >? 2 ^ 31 - 1) with false in Hinv'
        by (symmetry; rewrite Z.gtb_ltb; now apply Z.ltb_ge).
      cbn [fst] in Hinv'.
      destruct (IH _ Hinv' Hf) as [Hok Hbad].
      cbn [Pak.w Pak.wsBuf Pak.wsPos Pak.files Pak.offset] in Hok, Hbad.
      split.
      * intros Hroom. rewrite Hok by lia.
        rewrite <- app_assoc, Z.add_assoc. reflexivity.
      * intros Hover. apply Hbad. lia.
Qed.

(** X6: content may be written in chunks.  On a writer with an entry
    open, writing the chunks of a content one after the other, as
    [io.Copy] does, leaves the same writer as one [Write] of the whole
    content when it fits below the largest offset; when it does not fit
    both fail with errFileTooBig. *)
Theorem X6_chunked_write_is_one_write :
  forall ops chunks,
    let pak := runOps ops (Pak.NewWriter (Pak.mkWS [] 0)) in
    Pak.files pak <> [] ->
    (Pak.offset pak + len (concat chunks) <= 2 ^ 31 - 1 ->
       writeChunks chunks pak = Pak.Write (concat chunks) pak
       /\ snd (Pak.Write (concat chunks) pak) = None)
    /\ (Pak.offset pak + len (concat chunks) > 2 ^ 31 - 1 ->
          snd (writeChunks chunks pak) = Some errFileTooBig
          /\ snd (Pak.Write (concat chunks) pak) = Some errFileTooBig).
Proof.
  intros ops chunks pak Hne.
  pose proof (writerInv_runOps ops _ writerInv_NewWriter) as Hinv.
  fold pak in Hinv.
  assert (Hf : len (Pak.files pak) <> 0).
  { destruct (Pak.files pak); [congruence|]. unfold len. simpl length. lia. }
  destruct (writeChunks_spec chunks pak Hinv Hf) as [Hok Hbad].
  rewrite (Write_spec (concat chunks) pak Hinv).
  replace (len (Pak.files pak) =? 0) with false
    by (symmetry; now apply Z.eqb_neq).
  split.
  - intros Hroom.
    replace (Pak.offset pak + len (concat chunks) >? 2 ^ 31 - 1) with false
      by (symmetry; rewrite Z.gtb_ltb; now apply Z.ltb_ge).
    split; [now apply Hok | reflexivity].
  - intros Hover.
    replace (Pak.offset pak + len (concat chunks) >? 2 ^ 31 - 1) with true
      by (symmetry; rewrite Z.gtb_ltb; apply Z.ltb_lt; lia).
    split; [now apply Hbad | reflexivity].
Qed.

Lemma X6_chunked_write_is_one_write_witness :
  writeChunks [str "te"; []; str "st"]
    (runOps [OpCreate (str "foo")] (Pak.NewWriter (Pak.mkWS [] 0)))
  = Pak.Write (concat [str "te"; []; str "st"])
      (runOps [OpCreate (str "foo")] (Pak.NewWriter (Pak.mkWS [] 0))).
Proof.
  refine (proj1 (proj1 (X6_chunked_write_is_one_write
                          [OpCreate (str "foo")] [str "te"; []; str "st"] _)
                   _)).
  - vm_compute. discriminate.
  - vm_compute. discriminate.
Defined.

(** X7: the errors of the writer.  On a writer reached by any [Create]
    and [Write] calls: [Create] fails with errNameTooLong exactly for a
    name of more than 56 bytes, and otherwise with errTooManyFiles
    exactly when 4096 entries exist; [Write] fails with errFileNotOpen
    exactly when no entry was created, and otherwise with errFileTooBig
    exactly when the cursor would pass 2^31-1; a failed call writes no
    byte, moves no cursor and adds no entry; and once [Close] was
    called, [Create], [Write] and [Close] all fail with errAlreadyClosed
    and change nothing. *)
Theorem X7_writer_errors :
  forall ops name p,
    let pak := runOps ops (Pak.NewWriter (Pak.mkWS [] 0)) in
    let closedPak := fst (Pak.Close pak) in
    snd (Pak.Create name pak)
    = (if len name >? 56 then Some errNameTooLong
       else if len (Pak.files pak) >=? 4096 then Some errTooManyFiles
       else None)
    /\ snd (Pak.Write p pak)
       = (if len (Pak.files pak) =? 0 then Some errFileNotOpen
          else if Pak.offset pak + len p >? 2 ^ 31 - 1
               then Some errFileTooBig
          else None)
    /\ (snd (Pak.Write p pak) <> None -> fst (Pak.Write p pak) = pak)
    /\ (snd (Pak.Create name pak) <> None ->
        Pak.w (fst (Pak.Create name pak)) = Pak.w pak
        /\ Pak.offset (fst (Pak.Create name pak)) = Pak.offset pak
        /\ len (Pak.files (fst (Pak.Create name pak))) = len (Pak.files pak))
    /\ Pak.Create name closedPak = (closedPak, Some errAlreadyClosed)
    /\ Pak.Write p closedPak = (closedPak, Some errAlreadyClosed)
    /\ Pak.Close closedPak = (closedPak, Some errAlreadyClosed).
Proof.
  intros ops name p pak closedPak.
  pose proof (writerInv_runOps ops _ writerInv_NewWriter) as Hinv.
  fold pak in Hinv.
  assert (Hcl : Pak.closed closedPak = true).
  { unfold closedPak. rewrite (Close_spec pak Hinv).
    destruct (_ >? _); reflexivity. }
  rewrite (Create_spec name pak Hinv), (Write_spec p pak Hinv).
  split; [|split; [|split; [|split; [|split; [|split]]]]].
  - destruct (len name >? 56); [reflexivity|].
    destruct (len (Pak.files pak) >=? 4096); reflexivity.
  - destruct (len (Pak.files pak) =? 0); [reflexivity|].
    destruct (Pak.offset pak + len p >? 2 ^ 31 - 1); reflexivity.
  - destruct (len (Pak.files pak) =? 0); [reflexivity|].
    destruct (Pak.offset pak + len p >? 2 ^ 31 - 1); [reflexivity|].
    intros H. exfalso. apply H. reflexivity.
  - destruct (len name >? 56);
      [intros _; cbn [fst Pak.w Pak.offset Pak.files];
       rewrite len_setLastLen; repeat split|].
    destruct (len (Pak.files pak) >=? 4096);
      [intros _; cbn [fst Pak.w Pak.offset Pak.files];
       rewrite len_setLastLen; repeat split|].
    intros H. exfalso. apply H. reflexivity.
  - unfold Pak.Create. now rewrite Hcl.
  - unfold Pak.Write. now rewrite Hcl.
  - unfold Pak.Close. now rewrite Hcl.
Qed.

Lemma X7_writer_errors_witness :
  fst (Pak.Write (str "x") (runOps [] (Pak.NewWriter (Pak.mkWS [] 0))))
  = runOps [] (Pak.NewWriter (Pak.mkWS [] 0)).
Proof.
  refine (proj1 (proj2 (proj2 (X7_writer_errors [] [] (str "x")))) _).
  vm_compute. discriminate.
Defined.

(** ** The handler *)

Lemma acceptElements_fold l : forall g d,
  fold_left
    (fun '(hasGzip, hasDeflate) encoding =>
       let e := ToLower (TrimSpace encoding) in
       if eqs e (str "gzip") then (true, hasDeflate)
       else if eqs e (str "deflate") then (hasGzip, true)
       else (hasGzip, hasDeflate)) l (g, d)
  = (g || existsb (fun e => eqs (ToLower (TrimSpace e)) (str "gzip")) l,
     d || existsb (fun e => eqs (ToLower (TrimSpace e)) (str "deflate")) l).
Proof.
  match goal with |- context [fold_left ?f _ _] => set (step := f) end.
  assert (Hs : forall g d x,
             step (g, d) x
             = if eqs (ToLower (TrimSpace x)) (str "gzip") then (true, d)
               else if eqs (ToLower (TrimSpace x)) (str "deflate")
                    then (g, true) else (g, d)) by reflexivity.
  clearbody step.
  induction l as [|x l IH]; intros g d; cbn [fold_left existsb].
  - now rewrite !orb_false_r.
  - rewrite Hs.
    destruct (eqs (ToLower (TrimSpace x)) (str "gzip")) eqn:Eg.
    + apply eqs_true in Eg. rewrite Eg.
      change (eqs (str "gzip") (str "deflate")) with false.
      rewrite IH. cbn [orb]. now rewrite orb_true_r.
    + destruct (eqs (ToLower (TrimSpace x)) (str "deflate")) eqn:Ed;
        rewrite IH; cbn [orb]; [now rewrite orb_true_r | reflexivity].
Qed.

Lemma parseAcceptEncoding_offers r :
  Server.parseAcceptEncoding r
  = (offers (str "gzip") r, offers (str "deflate") r).
Proof.
  revert r. intros r. unfold Server.parseAcceptEncoding, offers.
    assert (G : forall vs g d,
               fold_left
                 (fun acc value =>
                    fold_left
                      (fun '(hasGzip, hasDeflate) encoding =>
                         let e := ToLower (TrimSpace encoding) in
                         if eqs e (str "gzip") then (true, hasDeflate)
                         else if eqs e (str "deflate") then (hasGzip, true)
                         else (hasGzip, hasDeflate))
                      (Split ","%char value) acc) vs (g, d)
               = (g || existsb
                         (fun value =>
                            existsb (fun e => eqs (ToLower (TrimSpace e))
                                                  (str "gzip"))
                                    (Split ","%char value)) vs,
                  d || existsb
                         (fun value =>
                            existsb (fun e => eqs (ToLower (TrimSpace e))
                                                  (str "deflate"))
                                    (Split ","%char value)) vs)).
    { induction vs as [|v vs IH]; intros g d; cbn [fold_left existsb].
      - now rewrite !orb_false_r.
      - rewrite acceptElements_fold, IH. now rewrite !orb_assoc. }
    apply (G _ false false).
Qed.



Lemma resolve_withMethod E m r : resolve E (withMethod m r) = resolve E r.
Proof. reflexivity. Qed.

(** X9: a HEAD request for an archive entry gets the status and the
    headers of the same request made with any other method, and no
    body: the archive's bytes are not read. *)
Theorem X9_HEAD_same_headers_no_body :
  forall E r entry f,
    resolve E r = Served (HitPak entry f) ->
    let head := Server.handler E (withMethod (str "HEAD") r) in
    Server.status head = Server.status (Server.handler E r)
    /\ Server.header head = Server.header (Server.handler E r)
    /\ Server.body head = [].
Proof.
  intros E r entry f Hres head. subst head.
  rewrite !handler_resolve, resolve_withMethod, Hres. unfold render.
  change (Server.parseAcceptEncoding (withMethod (str "HEAD") r))
    with (Server.parseAcceptEncoding r).
  destruct (Server.parseAcceptEncoding r) as [g d].
  unfold Server.serveEntry.
  change (eqs (Server.Method (withMethod (str "HEAD") r)) (str "HEAD"))
    with true. cbv iota.
  destruct (eqs (Server.Method r) (str "HEAD"));
    destruct (Server.method entry =? 0) eqn:Em; cbn [negb]; cbv iota;
    try destruct g; try destruct d;
    unfold Server.handleGzip, Server.handleRaw, Server.handleInflate;
    rewrite ?Em; cbn [negb]; cbv iota; repeat split.
Qed.

Lemma X9_HEAD_same_headers_no_body_witness :
  Server.body
    (Server.handler envPkz
       (withMethod (str "HEAD") (reqGet "/maps/a.bsp" ["gzip"%string])))
  = [].
Proof.
  refine (proj2 (proj2 (X9_HEAD_same_headers_no_body envPkz
            (reqGet "/maps/a.bsp" ["gzip"%string]) entryX fileX _))).
  vm_compute. reflexivity.
Defined.

(** X10: an entry stored without compression (method 0, as every entry
    of a .pak archive) is sent as it is whatever encodings the client
    accepts: the body is the stored bytes, Content-Length is the stored
    size and no Content-Encoding is set. *)
Theorem X10_stored_entry_is_sent_verbatim :
  forall E r entry f,
    resolve E r = Served (HitPak entry f) ->
    eqs (Server.Method r) (str "HEAD") = false ->
    Server.method entry = 0 ->
    let resp := Server.handler E r in
    Server.status resp = 200
    /\ Server.body resp = Server.section f entry
    /\ getHeader resp "Content-Length"
       = Some (Server.FormatInt (Server.size entry))
    /\ getHeader resp "Content-Encoding" = None
    /\ getHeader resp "Content-Type" = Some (Server.ContentType E).
Proof.
  intros E r entry f Hres Hhead Hm resp. subst resp.
  rewrite handler_resolve, Hres. unfold render.
  destruct (Server.parseAcceptEncoding r) as [g d].
  unfold Server.serveEntry, Server.handleRaw. rewrite Hhead, Hm.
  repeat split.
Qed.

Lemma firstHit_app E p aP aD s2 : forall s1,
  firstHit E p aP aD (s1 ++ s2)
  = match firstHit E p aP aD s1 with
    | Some h => Some h
    | None => firstHit E p aP aD s2
    end.
Proof.
  induction s1 as [|s s1 IH]; [reflexivity|].
  cbn [app firstHit]. rewrite IH.
  destruct (Server.files s) as [m|].
  - destruct aP; [|reflexivity].
    destruct (Server.mapGet m p); [|reflexivity].
    destruct (Server.osOpen E (Server.path s)); reflexivity.
  - destruct aD; [|reflexivity].
    destruct (Server.osOpen E _); reflexivity.
Qed.

(** X11: backing stores are tried in order and the first hit answers.
    For a route built from several search directories, the response is
    the one of the stores of the first directories whenever one of them
    yields the asset, and the one of the later stores only otherwise. *)
Theorem X11_first_store_wins :
  forall E r p aP aD g d s1 s2 w,
    Server.serveLoop E r p aP aD g d (s1 ++ s2) w
    = match firstHit E p aP aD s1 with
      | Some _ => Server.serveLoop E r p aP aD g d s1 w
      | None => Server.serveLoop E r p aP aD g d s2 w
      end.
Proof.
  intros. rewrite !serveLoop_firstHit, firstHit_app.
  destruct (firstHit E p aP aD s1) as [h|]; reflexivity.
Qed.

Lemma firstHit_filter_archives E p aD : forall stores,
  firstHit E p false aD stores
  = firstHit E p false aD (filter (fun s => negb (isArchive s)) stores).
Proof.
  induction stores as [|s t IH]; [reflexivity|].
  cbn [filter firstHit]. unfold isArchive at 1.
  destruct (Server.files s) as [m|] eqn:Ef; cbn [negb].
  - exact IH.
  - cbn [firstHit]. rewrite Ef, IH. reflexivity.
Qed.

Lemma firstHit_filter_dirs E p aP : forall stores,
  firstHit E p aP false stores
  = firstHit E p aP false (filter isArchive stores).
Proof.
  induction stores as [|s t IH]; [reflexivity|].
  cbn [filter firstHit]. unfold isArchive at 1.
  destruct (Server.files s) as [m|] eqn:Ef.
  - cbn [firstHit]. rewrite Ef, IH. reflexivity.
  - exact IH.
Qed.

(** X12: the two gates cannot be bypassed.  With the archive gate closed
    for an asset the response is the one the route would give without
    any of its archives, whatever they hold; with the directory gate
    closed it is the one the route would give without its directories,
    and no file is opened in them. *)
Theorem X12_closed_gate_hides_its_stores :
  forall E r p g d stores w,
    (forall aD,
        Server.serveLoop E r p false aD g d stores w
        = Server.serveLoop E r p false aD g d
            (filter (fun s => negb (isArchive s)) stores) w)
    /\ (forall aP,
           Server.serveLoop E r p aP false g d stores w
           = Server.serveLoop E r p aP false g d (filter isArchive stores) w)
    /\ Server.serveLoop E r p false false g d stores w
       = Server.WriteHeader Server.StatusNotFound w.
Proof.
  intros. split; [|split].
  - intros aD. now rewrite !serveLoop_firstHit, <- firstHit_filter_archives.
  - intros aP. now rewrite !serveLoop_firstHit, <- firstHit_filter_dirs.
  - rewrite serveLoop_firstHit.
    induction stores as [|s t IH]; [reflexivity|].
    cbn [firstHit]. destruct (Server.files s); exact IH.
Qed.

(** X13: the error responses.  A forbidden request gets status 403, no
    body and no header but "Connection: close" on HTTP/1.1 and later; a
    request that is not found gets status 404, no header and no body. *)
Theorem X13_error_responses_are_bare :
  forall E r,
    (resolve E r = Forbidden ->
       Server.handler E r
       = Server.mkResponse 403
           (if Server.ProtoAtLeast11 r
            then [(str "Connection", str "close")] else []) [])
    /\ (resolve E r = NotFound ->
          Server.handler E r = Server.mkResponse 404 [] []).
Proof.
  intros E r. rewrite handler_resolve. split; intros ->.
  - unfold Server.closeWithError. destruct (Server.ProtoAtLeast11 r);
      reflexivity.
  - reflexivity.
Qed.

Lemma X13_error_responses_are_bare_witness :
  Server.handler envGate (reqGet "/secret/rcon.cfg" [])
  = Server.mkResponse 404 [] [].
Proof.
  apply (proj2 (X13_error_responses_are_bare envGate
                  (reqGet "/secret/rcon.cfg" []))).
  vm_compute. reflexivity.
Defined.

Lemma X10_stored_entry_is_sent_verbatim_witness :
  Server.body
    (Server.handler envPak (reqGet "/FOO" ["gzip, deflate"%string]))
  = Server.section pakOneFile entryFoo.
Proof.
  refine (proj1 (proj2 (X10_stored_entry_is_sent_verbatim envPak
            (reqGet "/FOO" ["gzip, deflate"%string]) entryFoo pakOneFile
            _ _ _))).
  - vm_compute. reflexivity.
  - vm_compute. reflexivity.
  - reflexivity.
Defined.

(** ** Names *)

Lemma lowerByte_eqb_special c d :
  d = slash \/ d = dot \/ d = backslash ->
  Ascii.eqb (lowerByte c) d = Ascii.eqb c d.
Proof.
  intros Hd. destruct (Ascii.eqb c d) eqn:E.
  - apply Ascii.eqb_eq in E. subst c. apply Ascii.eqb_eq.
    now apply lowerByte_special.
  - destruct (Ascii.eqb (lowerByte c) d) eqn:E'; [|reflexivity].
    apply Ascii.eqb_eq in E'. apply (lowerByte_special c d Hd) in E'.
    subst c. now rewrite Ascii.eqb_refl in E.
Qed.

Lemma Split_ToLower : forall s,
  Split slash (ToLower s) = map ToLower (Split slash s).
Proof.
  induction s as [|c t IH]; [reflexivity|].
  cbn [ToLower map Split]. fold (ToLower t).
  rewrite lowerByte_eqb_special by auto.
  destruct (Ascii.eqb c slash); rewrite IH; [reflexivity|].
  pose proof (Split_nonempty slash t) as Hne.
  destruct (Split slash t); [congruence|reflexivity].
Qed.

Lemma eqs_ToLower_nil e : eqs (ToLower e) [] = eqs e [].
Proof. destruct e; reflexivity. Qed.

Lemma eqs_ToLower_dot e : eqs (ToLower e) dotS = eqs e dotS.
Proof.
  destruct e as [|c [|c' t]]; try reflexivity;
    cbn [ToLower map eqs dotS]; now rewrite lowerByte_eqb_special by auto.
Qed.

Lemma eqs_ToLower_dotdot e : eqs (ToLower e) dotdotS = eqs e dotdotS.
Proof.
  destruct e as [|c [|c' [|c'' t]]]; try reflexivity;
    cbn [ToLower map eqs dotdotS];
    now rewrite !lowerByte_eqb_special by auto.
Qed.

Lemma cleanLoop_ToLower : forall elems out,
  cleanLoop true (map ToLower elems) (map ToLower out)
  = map ToLower (cleanLoop true elems out).
Proof.
  induction elems as [|e t IH]; intros out; [reflexivity|].
  cbn [map cleanLoop].
  rewrite eqs_ToLower_nil, eqs_ToLower_dot, eqs_ToLower_dotdot.
  destruct (eqs e []); [apply IH|].
  destruct (eqs e dotS); [apply IH|].
  destruct (eqs e dotdotS).
  - destruct out as [|top below]; cbn [map]; [apply (IH [])|].
    rewrite eqs_ToLower_dotdot.
    destruct (eqs top dotdotS); [apply (IH (top :: below)) | apply IH].
  - apply (IH (e :: out)).
Qed.

Lemma ReplaceAllBackslash_ToLower n :
  ReplaceAllBackslash (ToLower n) = ToLower (ReplaceAllBackslash n).
Proof.
  unfold ReplaceAllBackslash, ToLower. rewrite !map_map. apply map_ext.
  intros c. rewrite lowerByte_eqb_special by auto.
  destruct (Ascii.eqb c backslash); reflexivity.
Qed.

Lemma normalizeName_ToLower n :
  Server.normalizeName (ToLower n) = Server.normalizeName n.
Proof.
  unfold Server.normalizeName.
  rewrite !Clean_rooted, !drop_1_cons, ReplaceAllBackslash_ToLower.
  rewrite Split_ToLower.
  change (@nil (list ascii)) with (map ToLower []) at 1.
  rewrite cleanLoop_ToLower, <- map_rev, <- ToLower_Join.
  apply ToLower_idem.
Qed.

Lemma normalizeName_elements n :
  Server.normalizeName n = []
  \/ forallb realElement (elements (Server.normalizeName n)) = true.
Proof.
  destruct (normalizeName_form n) as (segs & Hm & Hreal & Hslash & _).
  destruct segs as [|e t]; [left; exact Hm|]. right.
  rewrite Hm. unfold elements.
  rewrite Split_Join; [exact Hreal|discriminate|exact Hslash].
Qed.

(** X14: what [normalizeName] returns and what it ignores.  The
    normalized name has no backslash, no leading slash, no upper-case
    letter, and is empty or made of real elements only (none is empty,
    "." or ".."); and the case of the letters of the input does not
    matter, nor whether it separates with slashes or backslashes. *)
Theorem X14_normalizeName_result :
  forall n,
    isASCII n = true ->
    let m := Server.normalizeName n in
    ~ In backslash m
    /\ HasPrefix m [slash] = false
    /\ ToLower m = m
    /\ (m = [] \/ forallb realElement (elements m) = true)
    /\ ~ In dotdotS (elements m)
    /\ Server.normalizeName (ToLower n) = m
    /\ Server.normalizeName (ReplaceAllBackslash n) = m.
Proof.
  intros n _ m.
  destruct (normalizeName_form n) as (segs & Hm & Hreal & Hslash & Hback & Hlow).
  fold m in Hm.
  pose proof (normalizeName_elements n) as Hel. fold m in Hel.
  split; [|split; [|split; [|split; [|split; [|split]]]]].
  - rewrite Hm. intros Hin. apply In_Join in Hin.
    destruct Hin as [Hc|(e & He & Hc)]; [discriminate Hc|].
    rewrite Forall_forall in Hback. now apply (Hback e).
  - destruct Hel as [->|Hel]; [reflexivity|].
    now apply real_elements_no_leading_slash.
  - rewrite Hm, ToLower_Join, Hlow. reflexivity.
  - exact Hel.
  - destruct Hel as [->|Hel]; [|now apply real_not_dotdot].
    intros [H|[]]. discriminate H.
  - apply normalizeName_ToLower.
  - unfold m, Server.normalizeName.
    rewrite (ReplaceAllBackslash_id (ReplaceAllBackslash n))
      by apply ReplaceAllBackslash_none.
    reflexivity.
Qed.

Lemma X14_normalizeName_result_witness :
  Server.normalizeName (ToLower (str "Maps/../Models/A.MD2"))
  = Server.normalizeName (str "Maps/../Models/A.MD2").
Proof.
  refine (proj1 (proj2 (proj2 (proj2 (proj2 (proj2
            (X14_normalizeName_result (str "Maps/../Models/A.MD2") _))))))).
  vm_compute. reflexivity.
Defined.

(** ** The scanner *)

Lemma scanpakEntries_S f pos k m :
  Server.scanpakEntries f pos (S k) m
  = bind (Pak.readEntry f pos) (fun entry =>
      if Pak.Filelen entry >? Server.MaxInt32 then Err errBadDirectory
      else Server.scanpakEntries f (pos + 64) k
             (Server.mapSet m
                (Server.normalizeName (untilZero (Pak.Name entry)))
                (Server.mkPakFileEntry (Pak.Filepos entry)
                   (Pak.Filelen entry) 0 0 0 0))).
Proof. reflexivity. Qed.

Lemma checkEntry_ok_form entry f :
  Pak.checkEntry entry = Ok f ->
  f = fileOf entry /\ Pak.Filelen entry <= 2 ^ 31 - 1.
Proof.
  unfold Pak.checkEntry, Pak.MaxOffset.
  destruct (Pak.Filelen entry >? 2 ^ 31 - 1) eqn:E; [discriminate|].
  rewrite Z.gtb_ltb in E. apply Z.ltb_ge in E.
  destruct (Pak.Filepos entry >? _); [discriminate|].
  intros H. inversion H; subst. split; [reflexivity | exact E].
Qed.

Lemma scanpakEntries_of_readFiles r : forall n pos fs m,
  Pak.readFiles r pos n = Ok fs ->
  Server.scanpakEntries r pos n m = Ok (rev (map scannedEntry fs) ++ m).
Proof.
  induction n as [|n IH]; intros pos fs m H.
  - inversion H; subst. reflexivity.
  - rewrite readFiles_S in H. rewrite scanpakEntries_S.
    destruct (Pak.readEntry r pos) as [entry|] eqn:Er; [|discriminate H].
    rewrite bind_Ok in H. rewrite bind_Ok.
    destruct (Pak.checkEntry entry) as [f|] eqn:Ec;
      [|rewrite bind_Err in H; discriminate H].
    rewrite bind_Ok in H.
    destruct (Pak.readFiles r (pos + Pak.entrySize) n) as [fs'|] eqn:Ef;
      [|rewrite bind_Err in H; discriminate H].
    rewrite bind_Ok in H. inversion H; subst fs.
    destruct (checkEntry_ok_form _ _ Ec) as [-> Hl].
    unfold Server.MaxInt32.
    replace (Pak.Filelen entry >? 2 ^ 31 - 1) with false
      by (symmetry; rewrite Z.gtb_ltb; now apply Z.ltb_ge).
    rewrite (IH _ _ _ Ef). cbn [map rev]. rewrite <- app_assoc.
    reflexivity.
Qed.

(** X15: the server's scanner accepts every archive the codec's reader
    accepts, and lists its files: for each file, in directory order, the
    normalized name is assigned the file's position and length, with
    method 0 and no CRC or time, so that of two files with the same
    normalized name the later one is served. *)
Theorem X15_scanpak_accepts_what_the_reader_accepts :
  forall name r fs,
    Pak.init r = Ok fs ->
    Server.scanpak name r
    = Ok (Server.mkSearchPath name (Some (rev (map scannedEntry fs))))
    /\ forall pre f post,
         fs = pre ++ f :: post ->
         (forall f', In f' post ->
                     Server.normalizeName (Pak.fName f')
                     <> Server.normalizeName (Pak.fName f)) ->
         Server.mapGet (rev (map scannedEntry fs))
           (Server.normalizeName (Pak.fName f))
         = Some (Server.mkPakFileEntry (Pak.fFilepos f) (Pak.fFilelen f)
                   0 0 0 0).
Proof.
  intros name r fs H. split.
  - unfold Pak.init in H. unfold Server.scanpak.
    destruct (Pak.readHeader r 0) as [h|]; [|discriminate H].
    rewrite bind_Ok in H. rewrite bind_Ok.
    destruct (Pak.Ident h =? Pak.pakIdent); cbn [negb] in *;
      [|discriminate H].
    destruct (negb (Pak.Dirlen h mod Pak.entrySize =? 0)); [discriminate H|].
    destruct (Pak.Dirlen h / Pak.entrySize >? Pak.MaxFiles);
      [discriminate H|].
    destruct (Pak.Dirofs h >? _); [discriminate H|].
    change (Pak.Dirlen h / 64) with (Pak.Dirlen h / Pak.entrySize).
    rewrite (scanpakEntries_of_readFiles _ _ _ _ [] H).
    rewrite bind_Ok, app_nil_r. reflexivity.
  - intros pre f post -> Hlast.
    rewrite map_app, rev_app_distr. cbn [map rev].
    rewrite <- app_assoc. cbn [app].
    clear H. revert Hlast.
    induction post as [|f' post IH] using rev_ind; intros Hlast.
    + cbn [map rev app Server.mapGet]. unfold scannedEntry at 1.
      now rewrite eqs_refl.
    + rewrite map_app, rev_app_distr. cbn [map rev app Server.mapGet].
      unfold scannedEntry at 1.
      destruct (eqs (Server.normalizeName (Pak.fName f))
                    (Server.normalizeName (Pak.fName f'))) eqn:E.
      * apply eqs_true in E. exfalso.
        apply (Hlast f'); [apply in_or_app; right; now left | now symmetry].
      * apply IH. intros f'' Hin. apply Hlast. apply in_or_app. now left.
Qed.

Lemma X15_scanpak_accepts_what_the_reader_accepts_witness :
  Server.scanpak (str "/srv/pak0.pak") pakOneFile
  = Ok (Server.mkSearchPath (str "/srv/pak0.pak")
          (Some (rev (map scannedEntry [Pak.mkFile (str "foo") 12 4])))).
Proof.
  refine (proj1 (X15_scanpak_accepts_what_the_reader_accepts
                   (str "/srv/pak0.pak") pakOneFile
                   [Pak.mkFile (str "foo") 12 4] _)).
  vm_compute. reflexivity.
Defined.




(** ** Content-Length *)

Lemma digitsValue_acc : forall l a,
  fold_left (fun acc c => acc * 10 + (byteZ c - 48)) l a
  = a * 10 ^ len l + digitsValue l.
Proof.
  unfold digitsValue.
  induction l as [|c l IH]; intros a.
  - cbn. lia.
  - cbn [fold_left]. rewrite IH, (IH (0 * 10 + (byteZ c - 48))).
    replace (len (c :: l)) with (len l + 1)
      by (unfold len; simpl length; lia).
    rewrite Z.pow_add_r by (pose proof (len_nonneg l); lia).
    ring.
Qed.

Lemma digitsValue_cons c l :
  digitsValue (c :: l) = (byteZ c - 48) * 10 ^ len l + digitsValue l.
Proof.
  unfold digitsValue at 1. cbn [fold_left]. rewrite digitsValue_acc. ring.
Qed.

Lemma formatDigits_value : forall fuel v acc,
  0 <= v < 10 ^ Z.of_nat fuel ->
  digitsValue (Server.formatDigits fuel v acc)
  = v * 10 ^ len acc + digitsValue acc.
Proof.
  induction fuel as [|k IH]; intros v acc Hv.
  - cbn in Hv. assert (v = 0) by lia. subst. cbn [Server.formatDigits]. lia.
  - cbn [Server.formatDigits].
    assert (Hd : byteZ (Zbyte (48 + v mod 10)) - 48 = v mod 10).
    { rewrite byteZ_Zbyte. pose proof (Z.mod_pos_bound v 10 ltac:(lia)).
      rewrite Z.mod_small by lia. lia. }
    pose proof (Z.div_mod v 10 ltac:(lia)) as Hdm.
    destruct (v / 10 =? 0) eqn:E.
    + apply Z.eqb_eq in E. rewrite digitsValue_cons, Hd.
      replace (v mod 10) with v by lia. reflexivity.
    + rewrite IH.
      * rewrite digitsValue_cons, Hd.
        replace (len (Zbyte (48 + v mod 10) :: acc)) with (len acc + 1)
          by (unfold len; simpl length; lia).
        rewrite Z.pow_add_r by (pose proof (len_nonneg acc); lia).
        rewrite Hdm at 3. ring.
      * rewrite Nat2Z.inj_succ, Z.pow_succ_r in Hv by lia.
        split; [apply Z.div_pos; lia|].
        apply Z.div_lt_upper_bound; lia.
Qed.

(** The decimal string [strconv.FormatInt] writes denotes the number. *)
Lemma digitsValue_FormatInt v :
  0 <= v < 10 ^ 20 -> digitsValue (Server.FormatInt v) = v.
Proof.
  intros Hv. unfold Server.FormatInt.
  rewrite formatDigits_value by exact Hv.
  change (len (@nil ascii)) with 0. change (digitsValue []) with 0. lia.
Qed.

Lemma len_section f entry :
  0 <= Server.offset entry -> 0 <= Server.size entry ->
  Server.offset entry + Server.size entry <= len f ->
  len (Server.section f entry) = Server.size entry.
Proof.
  intros Ho Hs Hin. unfold Server.section.
  rewrite len_take_min, len_drop. lia.
Qed.

(** X17: the Content-Length announced for an archive entry is the number
    of body bytes sent.  For an entry that lies inside its archive file
    and is sent as stored - because it is not compressed, or the client
    accepts gzip or deflate - on a request other than HEAD, the decimal
    value of the Content-Length header is the length of the body (the
    stored size, plus 18 bytes of gzip framing when gzip is chosen). *)
Theorem X17_content_length_is_body_length :
  forall E r entry f,
    resolve E r = Served (HitPak entry f) ->
    eqs (Server.Method r) (str "HEAD") = false ->
    0 <= Server.offset entry -> 0 <= Server.size entry < 2 ^ 32 ->
    Server.offset entry + Server.size entry <= len f ->
    Server.method entry = 0 \/ offers (str "gzip") r = true
    \/ offers (str "deflate") r = true ->
    exists v,
      getHeader (Server.handler E r) "Content-Length" = Some v
      /\ digitsValue v = len (Server.body (Server.handler E r)).
Proof.
  intros E r entry f Hres Hhead Ho Hs Hin Hsent.
  rewrite handler_resolve, Hres. unfold render.
  rewrite parseAcceptEncoding_offers.
  pose proof (len_section f entry Ho (proj1 Hs) Hin) as Hsec.
  unfold Server.serveEntry. rewrite Hhead.
  assert (Hraw :
    exists v,
      getHeader (Server.handleRaw entry (Some (Server.section f entry))
                   (Server.headerSet (str "Content-Type")
                      (Server.ContentType E) Server.noResponse))
        "Content-Length" = Some v
      /\ digitsValue v
         = len (Server.body
                  (Server.handleRaw entry (Some (Server.section f entry))
                     (Server.headerSet (str "Content-Type")
                        (Server.ContentType E) Server.noResponse)))).
  { exists (Server.FormatInt (Server.size entry)). split.
    - unfold Server.handleRaw, getHeader.
      destruct (negb (Server.method entry =? 0)); reflexivity.
    - rewrite digitsValue_FormatInt by lia.
      replace (Server.body _) with (Server.section f entry);
        [now rewrite Hsec|].
      unfold Server.handleRaw.
      destruct (negb (Server.method entry =? 0)); reflexivity. }
  destruct (Server.method entry =? 0) eqn:Em; cbn [negb]; cbv iota;
    [exact Hraw|].
  destruct (offers (str "gzip") r) eqn:Eg.
  - exists (Server.FormatInt (Server.size entry + 18)). split; [reflexivity|].
    rewrite digitsValue_FormatInt by lia.
    replace (Server.body _)
      with (gzipHeader entry ++ Server.section f entry ++ gzipTrailer entry)
      by reflexivity.
    rewrite !len_app, Hsec.
    change (len (gzipHeader entry)) with 10.
    change (len (gzipTrailer entry)) with 8. lia.
  - destruct (offers (str "deflate") r) eqn:Ed; [exact Hraw|].
    apply Z.eqb_neq in Em. destruct Hsent as [H|[H|H]];
      [contradiction | discriminate | discriminate].
Qed.

Lemma X17_content_length_is_body_length_witness :
  exists v,
    getHeader (Server.handler envPkz (reqGet "/maps/a.bsp" ["gzip"%string]))
      "Content-Length" = Some v
    /\ digitsValue v
       = len (Server.body
                (Server.handler envPkz
                   (reqGet "/maps/a.bsp" ["gzip"%string]))).
Proof.
  apply (X17_content_length_is_body_length envPkz
           (reqGet "/maps/a.bsp" ["gzip"%string]) entryX fileX).
  - vm_compute. reflexivity.
  - vm_compute. reflexivity.
  - vm_compute. discriminate.
  - split; vm_compute; [discriminate | reflexivity].
  - vm_compute. discriminate.
  - right. left. vm_compute. reflexivity.
Defined.

(** ** The order of archives *)

Lemma firstDigits_skip : forall pre s,
  forallb (fun c => negb (isDigit c)) pre = true ->
  firstDigits (pre ++ s) = firstDigits s.
Proof.
  induction pre as [|c pre IH]; intros s H; [reflexivity|].
  cbn [forallb] in H. apply andb_true_iff in H. destruct H as [Hc Hp].
  apply negb_true_iff in Hc. cbn [app firstDigits]. rewrite Hc. now apply IH.
Qed.

Lemma takeDigits_run : forall ds rest,
  forallb isDigit ds = true ->
  match rest with c :: _ => isDigit c = false | [] => True end ->
  takeDigits (ds ++ rest) = ds.
Proof.
  induction ds as [|d ds IH]; intros rest Hd Hr.
  - destruct rest as [|c rest]; [reflexivity|]. cbn. now rewrite Hr.
  - cbn [forallb] in Hd. apply andb_true_iff in Hd. destruct Hd as [H1 H2].
    cbn [app takeDigits]. rewrite H1. f_equal. now apply IH.
Qed.

(** X18: the number [atoi] reads in an ASCII name is its first run of
    decimal digits: whatever precedes the run (no digit) and whatever follows it
    are ignored, so pak10.pak gives 10 and pak007x9 gives 7; a run whose
    value does not fit in 63 bits, and a name without a digit, give an
    error. *)
Theorem X18_atoi_reads_first_digit_run :
  (forall s,
      isASCII s = true ->
      forallb (fun c => negb (isDigit c)) s = true -> Server.atoi s = None)
  /\ (forall pre ds rest,
         isASCII (pre ++ ds ++ rest) = true ->
         forallb (fun c => negb (isDigit c)) pre = true ->
         ds <> [] -> forallb isDigit ds = true ->
         match rest with c :: _ => isDigit c = false | [] => True end ->
         Server.atoi (pre ++ ds ++ rest)
         = if digitsValue ds <=? 2 ^ 63 - 1 then Some (digitsValue ds)
           else None).
Proof.
  split.
  - intros s _ H. unfold Server.atoi.
    rewrite <- (app_nil_r s), firstDigits_skip by exact H. reflexivity.
  - intros pre ds rest _ Hpre Hne Hds Hrest. unfold Server.atoi.
    rewrite firstDigits_skip by exact Hpre.
    destruct ds as [|d ds]; [congruence|].
    pose proof Hds as Hd. cbn [forallb] in Hd.
    apply andb_true_iff in Hd. destruct Hd as [Hd _].
    change (firstDigits ((d :: ds) ++ rest))
      with (if isDigit d then Some (takeDigits ((d :: ds) ++ rest))
            else firstDigits (ds ++ rest)).
    rewrite Hd, takeDigits_run by assumption. reflexivity.
Qed.

Lemma X18_atoi_reads_first_digit_run_witness :
  Server.atoi (str "pak" ++ str "007" ++ str "x9.pak")
  = if digitsValue (str "007") <=? 2 ^ 63 - 1
    then Some (digitsValue (str "007")) else None.
Proof.
  apply (proj2 X18_atoi_reads_first_digit_run).
  - reflexivity.
  - reflexivity.
  - discriminate.
  - reflexivity.
  - reflexivity.
Defined.

(** X19: the comparison [scandir] sorts with never puts two ASCII names
    each before the other, but it is not transitive: when a "pak" name has no
    digit the comparison by number and the comparison by letters
    disagree, as on paka10.pak, pakc9.pak and pakb.pak, each of which is
    to be tried before the next and the last before the first. *)
Theorem X19_pakLess_asymmetric_not_transitive :
  (forall x y,
      isASCII x = true -> isASCII y = true ->
      Server.pakLess x y = true -> Server.pakLess y x = false)
  /\ Server.pakLess (str "paka10.pak") (str "pakc9.pak") = true
  /\ Server.pakLess (str "pakc9.pak") (str "pakb.pak") = true
  /\ Server.pakLess (str "pakb.pak") (str "paka10.pak") = true
  /\ ~ (forall x y z,
           isASCII x = true -> isASCII y = true -> isASCII z = true ->
           Server.pakLess x y = true -> Server.pakLess y z = true ->
           Server.pakLess x z = true).
Proof.
  split; [intros x y _ _; apply pakLess_asym|].
  split; [vm_compute; reflexivity|].
  split; [vm_compute; reflexivity|].
  split; [vm_compute; reflexivity|].
  intros H.
  specialize (H (str "paka10.pak") (str "pakc9.pak") (str "pakb.pak")
                eq_refl eq_refl eq_refl
                ltac:(vm_compute; reflexivity) ltac:(vm_compute; reflexivity)).
  vm_compute in H. discriminate H.
Qed.

Lemma X19_pakLess_asymmetric_not_transitive_witness :
  Server.pakLess (str "pak0.pak") (str "pak2.pak") = false.
Proof.
  apply (proj1 X19_pakLess_asymmetric_not_transitive).
  - reflexivity.
  - reflexivity.
  - vm_compute. reflexivity.
Defined.

(** ** The scan of the search paths *)

Lemma cacheGet_eqs_refl cache name sp :
  Reload.cacheGet ((name, sp) :: cache) name = Some sp.
Proof. cbn [Reload.cacheGet]. now rewrite eqs_refl. Qed.

Lemma scandir_spec W name cache :
  cacheOK W cache ->
  fst (Reload.scandir W name cache) = Reload.scanFS W name
  /\ cacheOK W (snd (Reload.scandir W name cache))
  /\ Reload.cacheGet (snd (Reload.scandir W name cache)) name
     = Some (Reload.scanFS W name).
Proof.
  intros Hok. unfold Reload.scandir.
  destruct (Reload.cacheGet cache name) as [sp|] eqn:E; cbn [fst snd].
  - pose proof (Hok _ _ E) as ->. repeat split; assumption.
  - split; [reflexivity|]. split; [|apply cacheGet_eqs_refl].
    intros k v. cbn [Reload.cacheGet].
    destruct (eqs k name) eqn:Ek.
    + apply eqs_true in Ek. subst k. intros H. now inversion H.
    + apply Hok.
Qed.

Lemma scanDirs_spec W : forall dirs sp cache,
  cacheOK W cache ->
  fst (Reload.scanDirs W dirs sp cache)
  = sp ++ concat (map (Reload.scanFS W) dirs)
  /\ cacheOK W (snd (Reload.scanDirs W dirs sp cache)).
Proof.
  induction dirs as [|dir dirs IH]; intros sp cache Hok.
  - cbn. now rewrite app_nil_r.
  - cbn [Reload.scanDirs map concat].
    destruct (scandir_spec W dir cache Hok) as (Hsp & Hok' & _).
    destruct (Reload.scandir W dir cache) as [found cache'].
    cbn [fst snd] in *. subst found.
    destruct (IH (sp ++ Reload.scanFS W dir) cache' Hok') as [H1 H2].
    split; [rewrite H1; now rewrite <- app_assoc | exact H2].
Qed.

Lemma scanRoutes_spec W : forall cfgs tbl cache,
  cacheOK W cache ->
  fst (Reload.scanRoutes W cfgs tbl cache) = tbl ++ map (routeOf W) cfgs.
Proof.
  induction cfgs as [|cfg cfgs IH]; intros tbl cache Hok.
  - cbn. now rewrite app_nil_r.
  - cbn [Reload.scanRoutes map]. unfold Reload.scanRoute.
    destruct (scanDirs_spec W (Reload.Search cfg) [] cache Hok) as [Hsp Hok'].
    destruct (Reload.scanDirs W (Reload.Search cfg) [] cache) as [sp cache'].
    cbn [fst snd] in *. subst sp. rewrite IH by exact Hok'.
    rewrite <- app_assoc. reflexivity.
Qed.

(** X20: what a reload builds.  The new table has one route per
    configured search path, in the configured order, each with its
    compiled pattern and with the stores of its directories one after
    the other in the configured order; a directory that was scanned is
    answered from the cache without reading the file system again, so a
    directory listed for several routes gives all of them the same
    stores. *)
Theorem X20_reload_builds_one_route_per_search_path :
  (forall W cfgs, Reload.newTable W cfgs = map (routeOf W) cfgs)
  /\ (forall W W' name cache,
         Reload.scandir W' name (snd (Reload.scandir W name cache))
         = (fst (Reload.scandir W name cache),
            snd (Reload.scandir W name cache))).
Proof.
  split.
  - intros W cfgs. unfold Reload.newTable.
    rewrite scanRoutes_spec; [reflexivity|].
    intros k v H. discriminate H.
  - intros W W' name cache. unfold Reload.scandir.
    destruct (Reload.cacheGet cache name) as [sp|] eqn:E; cbn [fst snd].
    + now rewrite E.
    + now rewrite cacheGet_eqs_refl.
Qed.

(** ** pakutil *)



